(** * rag-chatbot: the vector retrieval core

    A shallow embedding of [utils.chunk_text] (src/utils.py) and of the
    [VectorStore] class (src/vector_store.py), with the properties of the
    chunker, of the position-aligned store and of its snapshot on disk. *)

From Stdlib Require Import String Ascii ZArith List Lia Bool Arith Sorted.
From Stdlib Require Import Permutation DecimalString.
Import ListNotations.

Open Scope Z_scope.

(** ** Python values used by the two modules *)

Module Py.

(** A Python [str] is a sequence of Unicode code points. *)
Definition char := N.
Definition text := list char.

(** Reading a Rocq string literal as a Python [str] (code points below 256). *)
Definition str (s : string) : text := map N_of_ascii (list_ascii_of_string s).

Definition nl : char := 10%N.

(** [str.isspace] on one code point; [str.strip] and the [\s] class of [re]
    on a [str] pattern use the same test. *)
Definition isspace (c : char) : bool :=
  ((9 <=? c) && (c <=? 13) || (28 <=? c) && (c <=? 32) || (c =? 133) || (c =? 160)
   || (c =? 5760) || (8192 <=? c) && (c <=? 8202) || (c =? 8232) || (c =? 8233)
   || (c =? 8239) || (c =? 8287) || (c =? 12288))%N.

(** [len(s)] *)
Definition len {A} (s : list A) : Z := Z.of_nat (length s).

(** A slice bound: a negative bound counts from the end, and the result is
    clamped to [0, len]. *)
Definition clamp (n i : Z) : Z :=
  let i := if i <? 0 then i + n else i in
  Z.max 0 (Z.min n i).

(** [s[i:j]] *)
Definition slice {A} (s : list A) (i j : Z) : list A :=
  let lo := clamp (len s) i in
  let hi := clamp (len s) j in
  firstn (Z.to_nat (hi - lo)) (skipn (Z.to_nat lo) s).

(** [s[i]]; [None] stands for IndexError. *)
Definition index {A} (s : list A) (i : Z) : option A :=
  let i := if i <? 0 then i + len s else i in
  if (0 <=? i) && (i <? len s) then nth_error s (Z.to_nat i) else None.

Fixpoint lstrip (s : text) : text :=
  match s with
  | c :: rest => if isspace c then lstrip rest else s
  | [] => []
  end.

Definition rstrip (s : text) : text := rev (lstrip (rev s)).

(** [s.strip()] *)
Definition strip (s : text) : text := rstrip (lstrip s).

(** Truth value of a sequence: [if s:] *)
Definition truthy {A} (s : list A) : bool :=
  match s with [] => false | _ :: _ => true end.

(** [max(l)] of a non-empty list of integers. *)
Definition max_list (l : list Z) : Z :=
  match l with
  | [] => 0
  | x :: rest => fold_left Z.max rest x
  end.

(** *** The four patterns of [chunk_text], and [re.finditer]

    A matcher gives the length of the match that starts at the head of the
    subject, if there is one.  All four patterns match only non-empty
    strings. *)
Definition matcher := text -> option nat.

Fixpoint run_of_spaces (s : text) : nat :=
  match s with
  | c :: rest => if isspace c then S (run_of_spaces rest) else O
  | [] => O
  end.

(** [\.\s+], [\!\s+], [\?\s+]: the literal, then a greedy non-empty run of
    whitespace. *)
Definition punct_spaces (p : char) : matcher := fun s =>
  match s with
  | c :: rest =>
      if (c =? p)%N then
        match run_of_spaces rest with
        | O => None
        | S n => Some (S (S n))
        end
      else None
  | [] => None
  end.

(** [\n\n] *)
Definition blank_line : matcher := fun s =>
  match s with
  | a :: b :: _ => if ((a =? nl) && (b =? nl))%N then Some 2%nat else None
  | _ => None
  end.

(** [m.end()] for each [m] of [re.finditer(pattern, s)]: the matches are
    found from left to right and do not overlap; [pos] is the offset of the
    head of [s] in the subject and [skip] counts the characters still inside
    the previous match. *)
Fixpoint finditer_ends (m : matcher) (s : text) (pos skip : nat) : list nat :=
  match s with
  | [] => []
  | _ :: rest =>
      match skip with
      | S k => finditer_ends m rest (S pos) k
      | O =>
          match m s with
          | Some n => (pos + n)%nat :: finditer_ends m rest (S pos) (n - 1)
          | None => finditer_ends m rest (S pos) 0
          end
      end
  end.

Definition finditer (m : matcher) (s : text) : list nat := finditer_ends m s 0 0.

End Py.

(** ** src/utils.py *)

Module Utils.
Import Py.

Definition dot : char := 46%N.
Definition bang : char := 33%N.
Definition question : char := 63%N.

Definition patterns : list matcher :=
  [punct_spaces dot; punct_spaces bang; punct_spaces question; blank_line].

(** Lines 37-41: the ends of all sentence breaks of [text[search_start:end]],
    as offsets into [text]. *)
Definition sentence_breaks (t : text) (search_start end_ : Z) : list Z :=
  flat_map
    (fun pattern =>
       map (fun e => search_start + Z.of_nat e)
           (finditer pattern (slice t search_start end_)))
    patterns.

(** Lines 33-44: where the window that starts at [start] is cut. *)
Definition cut_point (t : text) (max_chunk_size start : Z) : Z :=
  let end_ := start + max_chunk_size in
  if end_ <? len t then
    let search_start := Z.max (end_ - 200) start in
    let breaks := sentence_breaks t search_start end_ in
    if truthy breaks then max_list breaks else end_
  else end_.

(** Line 50. *)
Definition next_start (end_ overlap start : Z) : Z :=
  Z.max (end_ - overlap) (start + 1).

(** Lines 32-53, the [while] loop.  [fuel] bounds the number of iterations;
    [None] is returned when it runs out. *)
Fixpoint chunk_loop (fuel : nat) (t : text) (max_chunk_size overlap : Z)
    (start : Z) (chunks : list text) : option (list text) :=
  if start <? len t then
    match fuel with
    | O => None
    | S fuel' =>
        let end_ := cut_point t max_chunk_size start in
        let chunk := strip (slice t start end_) in
        let chunks := if truthy chunk then chunks ++ [chunk] else chunks in
        let start := next_start end_ overlap start in
        if start >=? len t then Some chunks
        else chunk_loop fuel' t max_chunk_size overlap start chunks
    end
  else Some chunks.

(** [chunk_text(text, max_chunk_size, overlap)] *)
Definition chunk_text (t : text) (max_chunk_size overlap : Z) : option (list text) :=
  if negb (truthy t) || (len t <=? max_chunk_size) then
    Some (if truthy t then [t] else [])
  else chunk_loop (length t) t max_chunk_size overlap 0 [].

(** The same loop, recording the window [(start, end)] of each iteration
    instead of the chunk it yields. *)
Fixpoint chunk_windows (fuel : nat) (t : text) (max_chunk_size overlap : Z)
    (start : Z) : option (list (Z * Z)) :=
  if start <? len t then
    match fuel with
    | O => None
    | S fuel' =>
        let end_ := cut_point t max_chunk_size start in
        let start' := next_start end_ overlap start in
        if start' >=? len t then Some [(start, end_)]
        else option_map (cons (start, end_))
               (chunk_windows fuel' t max_chunk_size overlap start')
    end
  else Some [].

(** The windows of a call of [chunk_text]: none on the early return. *)
Definition windows_of (t : text) (max_chunk_size overlap : Z) : option (list (Z * Z)) :=
  if negb (truthy t) || (len t <=? max_chunk_size) then Some []
  else chunk_windows (length t) t max_chunk_size overlap 0.

(** The chunk a window yields, if any (lines 46-48). *)
Definition chunk_of (t : text) (w : Z * Z) : list text :=
  let chunk := strip (slice t (fst w) (snd w)) in
  if truthy chunk then [chunk] else [].

End Utils.

(** ** What the spec says of the chunker

    A sentence-ending boundary, stated on the text and not through [re]: an
    offset [p] of the window [w] that follows a terminator and the
    whitespace after it, or that follows a blank line. *)

Module ChunkSpec.
Import Py Utils.

Definition terminator (c : char) : bool :=
  ((c =? dot) || (c =? bang) || (c =? question))%N.

Definition after_terminator (w : text) (p : nat) : Prop :=
  exists (i : nat) (c : char),
    nth_error w i = Some c /\ terminator c = true /\
    (i + 2 <= p <= length w)%nat /\
    forall j x, (i < j < p)%nat -> nth_error w j = Some x -> isspace x = true.

(** The newlines at the head of a text, and those that end just before
    offset [i] of [w]. *)
Fixpoint newlines (s : text) : nat :=
  match s with
  | c :: rest => if (c =? nl)%N then S (newlines rest) else O
  | [] => O
  end.

Definition newlines_before (w : text) (i : nat) : nat :=
  newlines (rev (firstn i w)).

(** A blank line is two newlines; the newlines of a run are taken in pairs
    from the start of the run, so that of three newlines in a row the first
    two are a blank line and the last two are not. *)
Definition after_blank_line (w : text) (p : nat) : Prop :=
  exists i : nat,
    p = (i + 2)%nat /\ nth_error w i = Some nl /\ nth_error w (S i) = Some nl /\
    Nat.even (newlines_before w i) = true.

Definition sentence_end (w : text) (p : nat) : Prop :=
  after_terminator w p \/ after_blank_line w p.

(** Consecutive windows: each starts at least one character after the one
    before. *)
Fixpoint advancing (ws : list (Z * Z)) : Prop :=
  match ws with
  | w1 :: rest =>
      match rest with
      | w2 :: _ => fst w1 + 1 <= fst w2
      | [] => True
      end /\ advancing rest
  | [] => True
  end.

(** [ceil(a / b)] for a positive [b]. *)
Definition ceil_div (a b : Z) : Z := (a + b - 1) / b.



(** The cut point as C8 words it: the furthest break of the last [overlap]
    characters of the window, the raw end when there is none. *)
Definition cut_point_in_overlap (t : text) (max_chunk_size overlap start : Z) : Z :=
  let end_ := start + max_chunk_size in
  let breaks := sentence_breaks t (Z.max (end_ - overlap) start) end_ in
  if truthy breaks then max_list breaks else end_.

(** Where a window that starts at [s] is cut, in the words of the spec: at
    its raw end [s + max_chunk_size] when it reaches the end of the text or
    when its last 200 characters (fewer for a shorter window) hold no
    sentence end; otherwise at the furthest sentence end of those
    characters. *)
Definition cut_as_specified (t : text) (mcs s e : Z) : Prop :=
  let end_ := s + mcs in
  let search_start := Z.max (end_ - 200) s in
  let w := slice t search_start end_ in
  (len t <= end_ -> e = end_) /\
  (end_ < len t ->
     ((forall p, ~ sentence_end w p) -> e = end_) /\
     ((exists p, sentence_end w p) ->
        search_start + 2 <= e <= search_start + len w /\
        sentence_end w (Z.to_nat (e - search_start)) /\
        (forall p, sentence_end w p -> search_start + Z.of_nat p <= e))).

End ChunkSpec.

(** ** src/vector_store.py *)

Module Store.
Import Py.

(** A metadata mapping, [Dict[str, Any]], as the producers build it. *)
Inductive pyval :=
| PStr (s : string)
| PInt (n : Z).

Definition metadata := list (string * pyval).

(** What a file of the snapshot holds. *)
Inductive file (A : Type) :=
| Absent
| Unreadable
| Holds (a : A).
Arguments Absent {A}.
Arguments Unreadable {A}.
Arguments Holds {A} a.

Definition exists_ {A} (f : file A) : bool :=
  match f with Absent => false | _ => true end.

(** How a call of [_save_index] can fail.  A failed [faiss.write_index]
    is taken to leave the index artifact as it was. *)
Inductive save_fault :=
| NoFault
| WriteIndexFails      (* faiss.write_index raises *)
| OpenMetadataFails    (* open(metadata_file, 'wb') raises *)
| DumpMetadataFails.   (* pickle.dump raises, the file is already truncated *)

(** Lines printed by the two [except] clauses that swallow the error. *)
Inductive printed :=
| ErrorSavingIndex
| ErrorLoadingIndex.

(** How a call that changes the object ends; the object is what it is at
    that point. *)
Inductive outcome :=
| Returned
| Raised (msg : string).

(** How a call that only reads ends. *)
Inductive result (A : Type) :=
| Returns (a : A)
| Raises (msg : string).
Arguments Returns {A} a.
Arguments Raises {A} msg.

Section WithFloats.

(** float32, and what faiss computes on it: the L2 normalisation of a row,
    the inner product of two rows, the order on scores, and the score of a
    padding entry.  Nothing below depends on their arithmetic. *)
Variable F : Type.
Variable normalize_L2 : list F -> list F.
Variable inner_product : list F -> list F -> F.
Variable fle : F -> F -> bool.
Variable padding_score : F.

(** [faiss.IndexFlatIP]: the dimension [d] and the stored rows; [ntotal] is
    their number. *)
Record IndexFlatIP := mkIndex { d : Z; xb : list (list F) }.

Definition ntotal (ix : IndexFlatIP) : Z := len (xb ix).

(** The pickled record of [metadata_file]. *)
Record snapshot := mkSnapshot {
  snap_texts : list text;
  snap_metadatas : list metadata;
  snap_dimension : Z
}.

Record Disk := mkDisk {
  index_file : file IndexFlatIP;
  metadata_file : file snapshot
}.

(** The fields of a [VectorStore] object. *)
Record VectorStore := mkStore {
  dimension : Z;
  index : option IndexFlatIP;
  texts : list text;
  metadatas : list metadata
}.

(** The object, the two files, and what was printed. *)
Record World := mkWorld {
  self : VectorStore;
  disk : Disk;
  stdout : list printed
}.

(** [np.array(embeddings, dtype=np.float32)] for a non-empty list of rows:
    the width of the matrix, [None] (ValueError) when the rows differ in
    length. *)
Definition np_array (embeddings : list (list F)) : option Z :=
  match embeddings with
  | [] => None
  | row :: rows =>
      if forallb (fun r => (length r =? length row)%nat) rows
      then Some (len row) else None
  end.

(** [index.add(x)] for a matrix of width [width]: faiss asserts
    [width == index.d]. *)
Definition IndexFlatIP_add (ix : IndexFlatIP) (width : Z) (rows : list (list F))
  : option IndexFlatIP :=
  if width =? d ix then Some (mkIndex (d ix) (xb ix ++ rows)) else None.

(** Lines 82-94. *)
Definition _save_index (fault : save_fault) (w : World) : World :=
  let s := self w in
  let written :=
    match index s with
    | Some ix =>
        match fault with
        | WriteIndexFails => None
        | _ => Some (mkDisk (Holds ix) (metadata_file (disk w)))
        end
    | None => Some (disk w)
    end in
  match written with
  | None => mkWorld s (disk w) (stdout w ++ [ErrorSavingIndex])
  | Some dk =>
      match fault with
      | OpenMetadataFails => mkWorld s dk (stdout w ++ [ErrorSavingIndex])
      | DumpMetadataFails =>
          mkWorld s (mkDisk (index_file dk) Unreadable) (stdout w ++ [ErrorSavingIndex])
      | _ =>
          mkWorld s
            (mkDisk (index_file dk)
               (Holds (mkSnapshot (texts s) (metadatas s) (dimension s))))
            (stdout w)
      end
  end.

(** What the messages of the two wrapped errors begin with. *)
Definition add_error : string := "Error adding documents to vector store".
Definition search_error : string := "Error during similarity search".

(** Lines 19-40.  [fault] says how the call of [_save_index] fails, if it is
    reached. *)
Definition add_documents (fault : save_fault) (w : World)
    (new_texts : list text) (embeddings : list (list F))
    (new_metadatas : list metadata) : outcome * World :=
  if negb (truthy new_texts) || negb (truthy embeddings) then (Returned, w)
  else
    match np_array embeddings with
    | None => (Raised add_error, w)
    | Some width =>
        let s := self w in
        let s :=
          match index s with
          | None => mkStore width (Some (mkIndex width [])) [] []
          | Some _ => s
          end in
        let rows := map normalize_L2 embeddings in
        match index s with
        | None => (Raised add_error, mkWorld s (disk w) (stdout w))
        | Some ix =>
            match IndexFlatIP_add ix width rows with
            | None => (Raised add_error, mkWorld s (disk w) (stdout w))
            | Some ix' =>
                let s := mkStore (dimension s) (Some ix')
                           (texts s ++ new_texts)
                           (metadatas s ++ new_metadatas) in
                (Returned, _save_index fault (mkWorld s (disk w) (stdout w)))
            end
        end
    end.

(** Lines 64-72; [os.remove] is taken to succeed. *)
Definition clear (w : World) : World :=
  mkWorld (mkStore (dimension (self w)) None [] [])
          (mkDisk Absent Absent)
          (stdout w).

(** Lines 96-111, on the object [s] as [__init__] has just set it. *)
Definition _load_index (s : VectorStore) (dk : Disk) (out : list printed) : World :=
  let failed s := mkWorld (mkStore (dimension s) None [] []) dk (out ++ [ErrorLoadingIndex]) in
  let loaded :=
    match metadata_file dk with
    | Absent => Some s
    | Unreadable => None
    | Holds data =>
        Some (mkStore (snap_dimension data) (index s)
                (snap_texts data) (snap_metadatas data))
    end in
  match loaded with
  | None => failed s
  | Some s =>
      if exists_ (index_file dk) && truthy (texts s) then
        match index_file dk with
        | Holds ix => mkWorld (mkStore (dimension s) (Some ix) (texts s) (metadatas s)) dk out
        | _ => failed s
        end
      else mkWorld s dk out
  end.

(** Lines 9-17: [VectorStore(dimension)] in a directory that holds [dk]. *)
Definition __init__ (dimension : Z) (dk : Disk) : World :=
  _load_index (mkStore dimension None [] []) dk [].

(** Lines 74-80; an index object is true, [None] is false. *)
Record stats := mkStats {
  total_documents : Z;
  vector_dimensions : Z;
  index_size : Z
}.

Definition get_stats (w : World) : stats :=
  let s := self w in
  mkStats (len (texts s))
          (match index s with Some _ => dimension s | None => 0 end)
          (match index s with Some ix => ntotal ix | None => 0 end).

(** *** Search *)

(** Insertion by decreasing score: [e] goes behind the entries of a
    strictly higher score only.  [sort_desc] inserts the rows from the last
    to the first, so of two rows of equal score the one at the earlier
    position comes first. *)
Fixpoint insert_desc (e : F * Z) (l : list (F * Z)) : list (F * Z) :=
  match l with
  | [] => [e]
  | h :: rest =>
      if fle (fst e) (fst h) && negb (fle (fst h) (fst e))
      then h :: insert_desc e rest else e :: h :: rest
  end.

Definition sort_desc (l : list (F * Z)) : list (F * Z) :=
  fold_right insert_desc [] l.

(** Rows paired with their positions, from [pos] on. *)
Fixpoint scored (q : list F) (rows : list (list F)) (pos : Z) : list (F * Z) :=
  match rows with
  | [] => []
  | row :: rest => (inner_product q row, pos) :: scored q rest (pos + 1)
  end.

(** [index.search(x, k)] for one query row of width [width]: faiss asserts
    [width == index.d] and [k > 0]; the [k] best rows come by decreasing
    inner product, and the missing ones are padded with the label -1. *)
Definition IndexFlatIP_search (ix : IndexFlatIP) (width : Z) (q : list F) (k : Z)
  : option (list (F * Z)) :=
  if (width =? d ix) && (0 <? k) then
    let best := firstn (Z.to_nat k) (sort_desc (scored q (xb ix) 0)) in
    Some (best ++ repeat (padding_score, -1) (Z.to_nat k - length best))
  else None.

(** One element of the answer of [similarity_search]. *)
Record hit := mkHit {
  hit_text : text;
  hit_metadata : metadata;
  hit_score : F;
  hit_rank : Z
}.

(** Lines 51-59: the loop over [enumerate(zip(scores[0], indices[0]))];
    [None] stands for an IndexError. *)
Fixpoint collect (s : VectorStore) (i : Z) (found : list (F * Z)) (results : list hit)
  : option (list hit) :=
  match found with
  | [] => Some results
  | (score, idx) :: rest =>
      if idx <? len (texts s) then
        match Py.index (texts s) idx, Py.index (metadatas s) idx with
        | Some t, Some m => collect s (i + 1) rest (results ++ [mkHit t m score (i + 1)])
        | _, _ => None
        end
      else collect s (i + 1) rest results
  end.

(** Lines 42-62. *)
Definition similarity_search (w : World) (query_embedding : list F) (k : Z)
  : result (list hit) :=
  let s := self w in
  match index s with
  | None => Returns []
  | Some ix =>
      if len (texts s) =? 0 then Returns []
      else
        let q := normalize_L2 query_embedding in
        let k := Z.min k (len (texts s)) in
        match IndexFlatIP_search ix (len query_embedding) q k with
        | None => Raises search_error
        | Some found =>
            match collect s 0 found [] with
            | Some results => Returns results
            | None => Raises search_error
            end
        end
  end.

(** *** Runs of operations, and what the spec says of them *)

Inductive op :=
| Add (fault : save_fault) (new_texts : list text) (embeddings : list (list F))
      (new_metadatas : list metadata)
| Clear.

Definition step (w : World) (o : op) : World :=
  match o with
  | Add fault ts es ms => snd (add_documents fault w ts es ms)
  | Clear => clear w
  end.

Definition run (w : World) (ops : list op) : World := fold_left step ops w.

(** The vectors of the index; none when it is not initialised. *)
Definition rows (s : VectorStore) : list (list F) :=
  match index s with Some ix => xb ix | None => [] end.

(** [len(texts) == len(metadatas) == index size] *)
Definition aligned (s : VectorStore) : Prop :=
  length (texts s) = length (rows s) /\ length (metadatas s) = length (rows s).

(** The caller supplies as many texts as embeddings as metadatas. *)
Definition equal_lengths (o : op) : Prop :=
  match o with
  | Add _ ts es ms => length ts = length es /\ length ms = length es
  | Clear => True
  end.

(** What sits at position [n]: vector, text and metadata. *)
Definition entry (s : VectorStore) (n : nat)
  : option (list F) * option text * option metadata :=
  (nth_error (rows s) n, nth_error (texts s) n, nth_error (metadatas s) n).

(** The three sequences of [s'] are those of [s] with the supplied ones
    appended. *)
Definition appended (s s' : VectorStore) (ts : list text) (es : list (list F))
    (ms : list metadata) : Prop :=
  rows s' = rows s ++ map normalize_L2 es /\
  texts s' = texts s ++ ts /\
  metadatas s' = metadatas s ++ ms.

(** The embeddings are a matrix of a width that the index accepts. *)
Definition accepted (s : VectorStore) (es : list (list F)) : Prop :=
  exists width, np_array es = Some width /\
    forall ix, index s = Some ix -> d ix = width.

(** Position integrity of a store in state [w]: it is aligned, and every
    further operation keeps it so; a clear empties the three sequences; an
    add with nothing to add, or whose embeddings are not a matrix of a
    width the index accepts, leaves the object as it is; every other add
    puts the i-th supplied vector, text and metadata together at position
    [old size + i], and moves nothing that was there. *)
Definition position_integrity (w : World) : Prop :=
  aligned (self w) /\
  forall o, equal_lengths o ->
    let s := self w in
    let s' := self (step w o) in
    aligned s' /\
    match o with
    | Clear => rows s' = [] /\ texts s' = [] /\ metadatas s' = []
    | Add _ ts es ms =>
        (ts = [] \/ ~ accepted s es -> s' = s) /\
        (ts <> [] -> accepted s es ->
         (length (rows s') = length (rows s) + length es)%nat /\
         (forall n, (n < length (rows s))%nat -> entry s' n = entry s n) /\
         (forall i, (i < length es)%nat ->
            entry s' (length (rows s) + i) =
            (option_map normalize_L2 (nth_error es i), nth_error ts i,
             nth_error ms i)))
    end.

(** The sequences that an add extends: those of the object, or empty ones
    when the index is not initialised (lines 25-29). *)
Definition kept (s : VectorStore) : VectorStore :=
  match index s with
  | Some _ => s
  | None => mkStore (dimension s) None [] []
  end.

(** The object after an add of width [width] went through (lines 25-35). *)
Definition committed (s : VectorStore) (width : Z) (ts : list text)
    (es : list (list F)) (ms : list metadata) : VectorStore :=
  mkStore (match index s with Some _ => dimension s | None => width end)
          (Some (mkIndex width (rows s ++ map normalize_L2 es)))
          (texts (kept s) ++ ts)
          (metadatas (kept s) ++ ms).

(** By decreasing score. *)
Definition desc (a b : F * Z) : Prop := fle (fst b) (fst a) = true.

(** What [found] must be for the loop of lines 52-59 to keep every entry:
    scores of rows of the index, with the position of the row. *)
Definition from_rows (s : VectorStore) (q : list F) (found : list (F * Z)) : Prop :=
  Forall (fun f => exists (n : nat) row,
            snd f = Z.of_nat n /\ nth_error (rows s) n = Some row /\
            fst f = inner_product q row)
         found.

(** A ranked answer: ranks 1, 2, ... in order, scores that do not increase,
    and at every rank the text and metadata of the position whose vector
    gave the score. *)
Definition ranks_from_one (hits : list hit) : Prop :=
  map hit_rank hits = map Z.of_nat (seq 1 (length hits)).

Definition scores_do_not_increase (hits : list hit) : Prop :=
  Sorted (fun a b => fle b a = true) (map hit_score hits).

Definition joined_by_position (s : VectorStore) (q : list F) (hits : list hit) : Prop :=
  Forall (fun h =>
            exists (n : nat) (row : list F),
              nth_error (rows s) n = Some row /\
              hit_score h = inner_product (normalize_L2 q) row /\
              nth_error (texts s) n = Some (hit_text h) /\
              nth_error (metadatas s) n = Some (hit_metadata h))
         hits.

End WithFloats.

Arguments mkIndex {F} d xb.
Arguments d {F} i.
Arguments xb {F} i.
Arguments ntotal {F} ix.
Arguments mkDisk {F} index_file metadata_file.
Arguments index_file {F} d.
Arguments metadata_file {F} d.
Arguments mkStore {F} dimension index texts metadatas.
Arguments dimension {F} v.
Arguments index {F} v.
Arguments texts {F} v.
Arguments metadatas {F} v.
Arguments mkWorld {F} self disk stdout.
Arguments self {F} w.
Arguments disk {F} w.
Arguments stdout {F} w.
Arguments np_array {F} embeddings.
Arguments IndexFlatIP_add {F} ix width rows.
Arguments _save_index {F} fault w.
Arguments add_documents {F} normalize_L2 fault w new_texts embeddings new_metadatas.
Arguments clear {F} w.
Arguments _load_index {F} s dk out.
Arguments __init__ {F} dimension dk.
Arguments get_stats {F} w.
Arguments insert_desc {F} fle e l.
Arguments sort_desc {F} fle l.
Arguments scored {F} inner_product q rows pos.
Arguments IndexFlatIP_search {F} inner_product fle padding_score ix width q k.
Arguments mkHit {F} hit_text hit_metadata hit_score hit_rank.
Arguments hit_text {F} h.
Arguments hit_metadata {F} h.
Arguments hit_score {F} h.
Arguments hit_rank {F} h.
Arguments collect {F} s i found results.
Arguments similarity_search {F} normalize_L2 inner_product fle padding_score w query_embedding k.
Arguments Add {F} fault new_texts embeddings new_metadatas.
Arguments Clear {F}.
Arguments step {F} normalize_L2 w o.
Arguments run {F} normalize_L2 w ops.
Arguments rows {F} s.
Arguments aligned {F} s.
Arguments equal_lengths {F} o.
Arguments entry {F} s n.
Arguments appended {F} normalize_L2 s s' ts es ms.
Arguments position_integrity {F} normalize_L2 w.
Arguments kept {F} s.
Arguments accepted {F} s es.
Arguments committed {F} normalize_L2 s width ts es ms.
Arguments desc {F} fle a b.
Arguments from_rows {F} inner_product s q found.
Arguments ranks_from_one {F} hits.
Arguments scores_do_not_increase {F} fle hits.
Arguments joined_by_position {F} normalize_L2 inner_product s q hits.

End Store.

(** ** A store of integer vectors, for the examples

    Unit vectors along the axes are their own normalisation, and their
    inner products are integers. *)

Module Sample.
Import Py Store.

Definition keep (v : list Z) : list Z := v.

Fixpoint dot_product (a b : list Z) : Z :=
  match a, b with
  | x :: a', y :: b' => x * y + dot_product a' b'
  | _, _ => 0
  end.

Definition lowest : Z := -1000.

Definition add := add_documents keep.
Definition search := similarity_search keep dot_product Z.leb lowest.

Definition no_files : Disk Z := mkDisk Absent Absent.

Definition meta (source : string) : metadata := [("source"%string, PStr source)].

(** A new store in an empty directory. *)
Definition fresh : World Z := __init__ 1536 no_files.

(** The same after [add_documents(["cat", "dog"], [[1,0,0],[0,1,0]], ...)]. *)
Definition two_docs : World Z :=
  snd (add NoFault fresh [str "cat"; str "dog"] [[1; 0; 0]; [0; 1; 0]]
           [meta "a"; meta "b"]).

End Sample.

(** ** The rest of src/utils.py *)

Module UtilsRest.
Import Py Utils.

(** [re.sub(pattern, repl, s)] for a pattern that matches no empty string:
    the matches are found from left to right and do not overlap, each is
    replaced by [repl], and what lies between them is kept; [skip] counts
    the characters still inside the previous match. *)
Fixpoint sub_from (m : matcher) (repl : text) (s : text) (skip : nat) : text :=
  match s with
  | [] => []
  | c :: rest =>
      match skip with
      | S k => sub_from m repl rest k
      | O =>
          match m s with
          | Some n => repl ++ sub_from m repl rest (n - 1)
          | None => c :: sub_from m repl rest 0
          end
      end
  end.

Definition sub (m : matcher) (repl : text) (s : text) : text := sub_from m repl s 0.

(** The length of the longest prefix of characters of a class. *)
Fixpoint run (p : char -> bool) (s : text) : nat :=
  match s with
  | c :: rest => if p c then S (run p rest) else O
  | [] => O
  end.

(** [[class]{k,}] for [k >= 1], greedy. *)
Definition at_least (k : nat) (p : char -> bool) : matcher := fun s =>
  let n := run p s in
  if (k <=? n)%nat then Some n else None.

(** [[class]] *)
Definition one (p : char -> bool) : matcher := fun s =>
  match s with
  | c :: _ => if p c then Some 1%nat else None
  | [] => None
  end.

(** [s.strip(chars)] *)
Fixpoint lstrip_chars (p : char -> bool) (s : text) : text :=
  match s with
  | c :: rest => if p c then lstrip_chars p rest else s
  | [] => []
  end.

Definition strip_chars (p : char -> bool) (s : text) : text :=
  rev (lstrip_chars p (rev (lstrip_chars p s))).

Definition underscore : char := 95%N.
Definition blank : char := 32%N.
Definition dquote : char := 34%N.
Definition squote : char := 39%N.

Definition is_underscore (c : char) : bool := (c =? underscore)%N.

(** The class of line 105: the characters < > : / \ | ? * and the double
    quote. *)
Definition unsafe (c : char) : bool :=
  ((c =? 60) || (c =? 62) || (c =? 58) || (c =? 34) || (c =? 47) || (c =? 92)
   || (c =? 124) || (c =? 63) || (c =? 42))%N.

(** The argument ['_ '] of [strip]. *)
Definition underscore_or_blank (c : char) : bool :=
  ((c =? underscore) || (c =? blank))%N.

(** Lines 102-116. *)
Definition sanitize_filename (filename : text) : text :=
  let filename := sub (one unsafe) [underscore] filename in
  let filename := sub (at_least 1 is_underscore) [underscore] filename in
  let filename := strip_chars underscore_or_blank filename in
  if truthy filename then filename else str "document".

(** [s.rfind(c)]: the last offset of [c], -1 when there is none. *)
Fixpoint rfind_from (c : char) (s : text) (pos found : Z) : Z :=
  match s with
  | [] => found
  | x :: rest => rfind_from c rest (pos + 1) (if (x =? c)%N then pos else found)
  end.

Definition rfind (c : char) (s : text) : Z := rfind_from c s 0 (-1).

(** ["sep".join(l)] *)
Fixpoint join (sep : text) (l : list text) : text :=
  match l with
  | [] => []
  | [x] => x
  | x :: rest => x ++ sep ++ join sep rest
  end.

(** [s.split('\n')] *)
Fixpoint split_lines (s : text) : list text :=
  match s with
  | [] => [[]]
  | c :: rest =>
      if (c =? nl)%N then [] :: split_lines rest
      else
        match split_lines rest with
        | l :: ls => (c :: l) :: ls
        | [] => [[c]]
        end
  end.

(** [s.count(c)] for one character. *)
Fixpoint count_char (c : char) (s : text) : nat :=
  match s with
  | [] => 0
  | x :: rest => (if (x =? c)%N then 1 else 0) + count_char c rest
  end.

(** [s.count('  ')]: the occurrences of two spaces that do not overlap. *)
Fixpoint count_two_blanks (s : text) : nat :=
  match s with
  | a :: tl =>
      match tl with
      | b :: rest =>
          if ((a =? 32) && (b =? 32))%N then S (count_two_blanks rest)
          else count_two_blanks tl
      | [] => 0
      end
  | [] => 0
  end.

Definition bar : char := 124%N.
Definition tab : char := 9%N.

(** Lines 68-69. *)
Definition separator_count (line : text) : nat :=
  count_char bar line + count_char tab line + count_two_blanks line.

(** Line 71. *)
Definition table_row (line : text) : bool := (2 <=? separator_count line)%nat.

(** Lines 65-79, the loop over the lines. *)
Fixpoint scan_lines (lines : list text) (tables : list text)
    (current_table : list text) (in_table : bool) : list text * list text :=
  match lines with
  | [] => (tables, current_table)
  | line :: rest =>
      let line := strip line in
      if table_row line then scan_lines rest tables (current_table ++ [line]) true
      else if in_table && truthy current_table then
        scan_lines rest (tables ++ [join [nl] current_table]) [] false
      else scan_lines rest tables current_table false
  end.

(** Lines 57-84. *)
Definition extract_tables_from_text (t : text) : list text :=
  let (tables, current_table) := scan_lines (split_lines t) [] [] false in
  if truthy current_table then tables ++ [join [nl] current_table] else tables.

(** No two neighbours of [l] are both of the class [p]. *)
Fixpoint no_adjacent (p : char -> bool) (l : text) : Prop :=
  match l with
  | a :: rest =>
      match rest with
      | b :: _ => p a && p b = false
      | [] => True
      end /\ no_adjacent p rest
  | [] => True
  end.

Section Truncate.

(** [last_space > max_length * 0.8], a comparison of an integer with a
    float product. *)
Variable above_four_fifths : Z -> Z -> bool.

(** Lines 118-130. *)
Definition truncate_text (t : text) (max_length : Z) : text :=
  if len t <=? max_length then t
  else
    let truncated := slice t 0 max_length in
    let last_space := rfind blank truncated in
    let truncated :=
      if above_four_fifths last_space max_length
      then slice truncated 0 last_space else truncated in
    truncated ++ str "...".

End Truncate.

Section Clean.

(** [str.isalnum] on one code point: the [\w] class of [re] is this and
    the underscore. *)
Variable isalnum : char -> bool.

Definition is_dot (c : char) : bool := (c =? dot)%N.
Definition is_quote (c : char) : bool := ((c =? dquote) || (c =? squote))%N.

(** The punctuation that line 13 keeps: - . , ! ? : ; ( ) and the two
    quotes. *)
Definition kept_punctuation (c : char) : bool :=
  ((c =? 45) || (c =? 46) || (c =? 44) || (c =? 33) || (c =? 63) || (c =? 58)
   || (c =? 59) || (c =? 34) || (c =? 39) || (c =? 40) || (c =? 41))%N.

(** What line 13 keeps: [\w], [\s] and that punctuation. *)
Definition allowed (c : char) : bool :=
  isalnum c || (c =? underscore)%N || isspace c || kept_punctuation c.

Definition special (c : char) : bool := negb (allowed c).

(** Lines 4-22. *)
Definition clean_text (t : text) : text :=
  if negb (truthy t) then []
  else
    let t := sub (at_least 1 isspace) [blank] t in
    let t := sub (one special) [blank] t in
    let t := sub (at_least 3 is_dot) [dot; dot; dot] t in
    let t := sub (at_least 2 is_quote) [dquote] t in
    strip t.

(** What every character of a cleaned text is: kept by line 13, and a
    plain space if it is whitespace. *)
Definition clean_char (c : char) : Prop :=
  allowed c = true /\ (isspace c = true -> c = blank).

End Clean.

End UtilsRest.

(** ** src/rag_system.py *)

Module Rag.
Import Py Utils UtilsRest Store.

(** A document as the producers hand it over: a mapping whose values are
    strings and whose keys may be missing. *)
Record document := mkDocument {
  doc_content : option text;
  doc_source : option string;
  doc_title : option string
}.

(** [d.get(key, default)] on a metadata mapping. *)
Fixpoint get (key : string) (default : pyval) (m : metadata) : pyval :=
  match m with
  | [] => default
  | (k, v) :: rest => if String.eqb k key then v else get key default rest
  end.

(** [str(v)], as an f-string formats a value. *)
Definition to_str (v : pyval) : string :=
  match v with
  | PStr s => s
  | PInt n => NilZero.string_of_int (Z.to_int n)
  end.

(** [enumerate(l)], counting from [i]. *)
Fixpoint enumerate {A} (i : Z) (l : list A) : list (Z * A) :=
  match l with
  | [] => []
  | x :: rest => (i, x) :: enumerate (i + 1) rest
  end.

(** Lines 29-34: the metadata of chunk [i] of [total]. *)
Definition chunk_metadata (doc : document) (i total : Z) : metadata :=
  [("source"%string,
    PStr (match doc_source doc with Some s => s | None => "unknown"%string end));
   ("title"%string,
    PStr (match doc_title doc with Some s => s | None => ""%string end));
   ("chunk_id"%string, PInt i);
   ("total_chunks"%string, PInt total)].

(** Lines 23-34, the body of the loop over the documents: what one document
    adds to [texts] and [metadatas]; [None] when [chunk_text] runs out of
    fuel. *)
Definition gather_one (doc : document) : option (list text * list metadata) :=
  let content := match doc_content doc with Some c => c | None => [] end in
  if negb (truthy (strip content)) then Some ([], [])
  else
    match chunk_text content 1000 200 with
    | None => None
    | Some chunks =>
        Some (chunks,
              map (fun ic => chunk_metadata doc (fst ic) (len chunks))
                  (enumerate 0 chunks))
    end.

(** Lines 19-34. *)
Fixpoint gather (docs : list document) (texts : list text)
    (metadatas : list metadata) : option (list text * list metadata) :=
  match docs with
  | [] => Some (texts, metadatas)
  | doc :: rest =>
      match gather_one doc with
      | None => None
      | Some (ts, ms) => gather rest (texts ++ ts) (metadatas ++ ms)
      end
  end.

(** The metadata of a chunk: the four keys in the order of lines 29-34,
    with a chunk number below the number of chunks. *)
Definition chunk_record (m : metadata) : Prop :=
  exists (source title : string) (i total : Z),
    m = [("source"%string, PStr source); ("title"%string, PStr title);
         ("chunk_id"%string, PInt i); ("total_chunks"%string, PInt total)] /\
    0 <= i < total.

(** What a document contributes to the texts and the metadatas: nothing
    when it has no content or only whitespace; otherwise the chunks of its
    content for the sizes 1000 and 200, and for the [i]-th chunk the
    metadata of the document with [chunk_id = i]. *)
Definition contributes (doc : document) (part : list text * list metadata) : Prop :=
  let content := match doc_content doc with Some c => c | None => [] end in
  length (fst part) = length (snd part) /\
  (strip content = [] -> fst part = []) /\
  (strip content <> [] -> chunk_text content 1000 200 = Some (fst part)) /\
  forall i m, nth_error (snd part) i = Some m ->
    m = chunk_metadata doc (Z.of_nat i) (len (fst part)).

Definition rag_error : string := "Failed to add documents to RAG system".

Definition dont_know : text :=
  str "I don't know. I can only answer questions based on the AngelOne documentation that has been loaded.".

(** What [query] returns first: an answer, or the text of line 72. *)
Inductive reply :=
| Answer (response : text)
| ErrorProcessingQuery.

Section WithClients.

Variable F : Type.
Variable normalize_L2 : list F -> list F.
Variable inner_product : list F -> list F -> F.
Variable fle : F -> F -> bool.
Variable padding_score : F.

(** The two calls of the model provider: [_generate_embeddings], [None]
    when it raises, and [_generate_response], which catches what it
    raises. *)
Variable _generate_embeddings : list text -> option (list (list F)).
Variable _generate_response : text -> text -> text.

(** Lines 16-41. *)
Definition add_documents (fault : save_fault) (w : World F)
    (documents : list document) : outcome * World F :=
  match gather documents [] [] with
  | None => (Raised rag_error, w)
  | Some (texts, metadatas) =>
      if truthy texts then
        match _generate_embeddings texts with
        | None => (Raised rag_error, w)
        | Some embeddings =>
            match Store.add_documents normalize_L2 fault w texts embeddings metadatas with
            | (Returned, w') => (Returned, w')
            | (Raised _, w') => (Raised rag_error, w')
            end
        end
      else (Returned, w)
  end.

(** Line 65. *)
Definition source_info (h : hit F) : string :=
  (to_str (get "title" (PStr "Unknown") (hit_metadata h)) ++ " - "
   ++ to_str (get "source" (PStr "Unknown source") (hit_metadata h)))%string.

(** Lines 62-67. *)
Fixpoint collect_sources (results : list (hit F)) (sources : list string)
  : list string :=
  match results with
  | [] => sources
  | h :: rest =>
      let info := source_info h in
      collect_sources rest
        (if existsb (String.eqb info) sources then sources else sources ++ [info])
  end.

(** Lines 54-72. *)
Definition query (w : World F) (question : text) (k : Z) : reply * list string :=
  match _generate_embeddings [question] with
  | Some (question_embedding :: _) =>
      match similarity_search normalize_L2 inner_product fle padding_score
              w question_embedding k with
      | Raises _ => (ErrorProcessingQuery, [])
      | Returns results =>
          if negb (truthy results) then (Answer dont_know, [])
          else
            let context := join [nl; nl] (map hit_text results) in
            (Answer (_generate_response question context),
             firstn 3 (collect_sources results []))
      end
  | _ => (ErrorProcessingQuery, [])
  end.

End WithClients.

Arguments add_documents {F} normalize_L2 _generate_embeddings fault w documents.
Arguments source_info {F} h.
Arguments collect_sources {F} results sources.
Arguments query {F} normalize_L2 inner_product fle padding_score
  _generate_embeddings _generate_response w question k.

End Rag.

(** ** Clients and texts for the examples *)

Module SampleClients.
Import Py Store Rag.

(** An embedding client that answers every text with the same unit
    vector, and a model that answers with the context it was given. *)
Definition same_vector (ts : list text) : option (list (list Z)) :=
  Some (map (fun _ => [1; 0; 0]) ts).

Definition echo (question context : text) : text := context.

(** The comparison of [truncate_text], in exact arithmetic. *)
Definition above_four_fifths (last_space max_length : Z) : bool :=
  4 * max_length <? 5 * last_space.

Definition two_documents : list document :=
  [mkDocument (Some (str "The cat sat on the mat.")) (Some "cats.txt"%string)
              (Some "Cats"%string);
   mkDocument (Some (str "   ")) None None].

(** A text of 2408 characters whose sentences end at the offsets 802, 1404
    and 2006. *)
Definition three_sentences : text :=
  repeat 97%N 800 ++ str ". " ++ repeat 97%N 600 ++ str ". "
  ++ repeat 97%N 600 ++ str ". " ++ repeat 97%N 402.

(** Three newlines in a row. *)
Definition three_newlines : text := str "ab" ++ [nl; nl; nl] ++ str "cdefgh".

End SampleClients.

(** * Properties *)

(** ** Slices and positions *)

Module PyFacts.
Import Py.

Lemma len_nonneg {A} (s : list A) : 0 <= len s.
Proof. unfold len. lia. Qed.

Lemma clamp_inside n i : 0 <= i -> clamp n i = Z.max 0 (Z.min n i).
Proof.
  intros Hi. unfold clamp.
  destruct (Z.ltb_spec i 0); [lia | reflexivity].
Qed.

(** A slice with bounds inside the text, read through [nth_error]. *)
Lemma slice_inside {A} (s : list A) (i j : Z) :
  0 <= i <= j -> j <= len s ->
  slice s i j = firstn (Z.to_nat (j - i)) (skipn (Z.to_nat i) s).
Proof.
  intros Hij Hj. unfold slice.
  rewrite !clamp_inside by lia.
  replace (Z.max 0 (Z.min (len s) i)) with i by lia.
  replace (Z.max 0 (Z.min (len s) j)) with j by lia.
  reflexivity.
Qed.

(** A slice with a non-negative lower bound never starts before it and
    never reaches beyond the text. *)
Lemma slice_clamped {A} (s : list A) (i j : Z) :
  0 <= i -> 0 <= j ->
  slice s i j = slice s (Z.min i (len s)) (Z.max (Z.min i (len s)) (Z.min j (len s))).
Proof.
  intros Hi Hj. pose proof (len_nonneg s) as Hn.
  unfold slice. rewrite !clamp_inside by lia.
  set (lo := Z.max 0 (Z.min (len s) i)).
  set (hi := Z.max 0 (Z.min (len s) j)).
  replace (Z.max 0 (Z.min (len s) (Z.min i (len s)))) with lo by (subst lo; lia).
  destruct (Z.le_gt_cases lo hi) as [Hle | Hgt].
  - replace (Z.max 0 (Z.min (len s) (Z.max (Z.min i (len s)) (Z.min j (len s)))))
      with hi by (subst lo hi; lia).
    reflexivity.
  - replace (Z.max 0 (Z.min (len s) (Z.max (Z.min i (len s)) (Z.min j (len s)))))
      with lo by (subst lo hi; lia).
    replace (Z.to_nat (hi - lo)) with 0%nat by lia.
    replace (Z.to_nat (lo - lo)) with 0%nat by lia.
    reflexivity.
Qed.

Lemma length_slice_inside {A} (s : list A) (i j : Z) :
  0 <= i <= j -> j <= len s -> len (slice s i j) = j - i.
Proof.
  intros Hij Hj. rewrite slice_inside by assumption.
  unfold len in *. rewrite length_firstn, length_skipn. lia.
Qed.

Lemma nth_error_slice {A} (s : list A) (i j : Z) (k : nat) :
  0 <= i <= j -> j <= len s -> (k < Z.to_nat (j - i))%nat ->
  nth_error (slice s i j) k = nth_error s (Z.to_nat i + k).
Proof.
  intros Hij Hj Hk. rewrite slice_inside by assumption.
  rewrite nth_error_firstn.
  destruct (Nat.ltb_spec k (Z.to_nat (j - i))); [| lia].
  apply nth_error_skipn.
Qed.

(** A slice of a slice. *)
Lemma slice_firstn_skipn {A} (s : list A) (i j : Z) (a b : nat) :
  0 <= i <= j -> j <= len s -> (a + b <= Z.to_nat (j - i))%nat ->
  firstn b (skipn a (slice s i j)) =
  slice s (i + Z.of_nat a) (i + Z.of_nat a + Z.of_nat b).
Proof.
  intros Hij Hj Hab.
  rewrite (slice_inside s i j) by assumption.
  rewrite slice_inside by lia.
  rewrite skipn_firstn_comm, firstn_firstn, skipn_skipn.
  f_equal; [lia | f_equal; lia].
Qed.

Lemma index_nth_error {A} (s : list A) (i : Z) (x : A) :
  0 <= i -> (index s i = Some x <-> nth_error s (Z.to_nat i) = Some x).
Proof.
  intros Hi. unfold index.
  destruct (Z.ltb_spec i 0); [lia |].
  destruct (Z.leb_spec 0 i); [| lia]. simpl.
  destruct (Z.ltb_spec i (len s)) as [Hlt | Hge]; [tauto |].
  split; [discriminate |].
  intros Hn. assert (Hlt : (Z.to_nat i < length s)%nat).
  { apply nth_error_Some. congruence. }
  unfold len in Hge. lia.
Qed.

(** *** Whitespace runs and [strip] *)

Lemma run_of_spaces_le_length s : (run_of_spaces s <= length s)%nat.
Proof.
  induction s as [| c s IH]; simpl; [lia |].
  destruct (isspace c); lia.
Qed.

(** A run of whitespace stops before the first character that is not. *)
Lemma run_of_spaces_stops s1 c s2 :
  isspace c = false -> (run_of_spaces (s1 ++ c :: s2) <= length s1)%nat.
Proof.
  intros Hc. induction s1 as [| x s1 IH]; simpl.
  - rewrite Hc. lia.
  - destruct (isspace x); lia.
Qed.

Lemma run_of_spaces_all s (k : nat) x :
  (k < run_of_spaces s)%nat -> nth_error s k = Some x -> isspace x = true.
Proof.
  revert k. induction s as [| c s IH]; intros k Hk Hx; simpl in *; [lia |].
  destruct (isspace c) eqn:Hc; [| lia].
  destruct k as [| k]; simpl in Hx.
  - congruence.
  - apply (IH k); [lia | assumption].
Qed.

(** A run of whitespace is at least as long as any all-whitespace prefix. *)
Lemma run_of_spaces_covers s (n : nat) :
  (n <= length s)%nat ->
  (forall j x, (j < n)%nat -> nth_error s j = Some x -> isspace x = true) ->
  (n <= run_of_spaces s)%nat.
Proof.
  revert n. induction s as [| c s IH]; intros n Hn Hall; simpl in *; [lia |].
  destruct n as [| n]; [lia |].
  assert (Hc : isspace c = true) by (apply (Hall 0%nat); [lia | reflexivity]).
  rewrite Hc.
  apply le_n_S, IH; [lia |].
  intros j x Hj Hx. apply (Hall (S j) x); [lia | exact Hx].
Qed.

Lemma lstrip_skipn s : lstrip s = skipn (run_of_spaces s) s.
Proof.
  induction s as [| c s IH]; simpl; [reflexivity |].
  destruct (isspace c); [exact IH | reflexivity].
Qed.

Lemma rstrip_firstn s : rstrip s = firstn (length s - run_of_spaces (rev s)) s.
Proof.
  unfold rstrip. rewrite lstrip_skipn, skipn_rev, rev_involutive.
  reflexivity.
Qed.

(** [strip] keeps one span of the text, and every character that is not
    whitespace lies inside it. *)
Lemma strip_span s :
  exists a b : nat,
    (a + b <= length s)%nat /\
    strip s = firstn b (skipn a s) /\
    forall k x, nth_error s k = Some x -> isspace x = false -> (a <= k < a + b)%nat.
Proof.
  exists (run_of_spaces s), (length (skipn (run_of_spaces s) s)
                             - run_of_spaces (rev (skipn (run_of_spaces s) s)))%nat.
  pose proof (run_of_spaces_le_length s) as Hle.
  split; [rewrite length_skipn; lia |].
  split; [unfold strip; rewrite lstrip_skipn, rstrip_firstn; reflexivity |].
  intros k x Hk Hx.
  destruct (nth_error_split s k Hk) as (s1 & s2 & Hs & Hlen).
  assert (Ha : (run_of_spaces s <= k)%nat).
  { rewrite Hs, <- Hlen. apply run_of_spaces_stops. exact Hx. }
  split; [exact Ha |].
  assert (Hskip : skipn (run_of_spaces s) s
                  = skipn (run_of_spaces s) s1 ++ x :: s2).
  { rewrite Hs at 2. rewrite skipn_app.
    replace (run_of_spaces s - length s1)%nat with 0%nat by lia. reflexivity. }
  rewrite Hskip, rev_app_distr. simpl rev. rewrite <- app_assoc. simpl app.
  pose proof (run_of_spaces_stops (rev s2) x (rev (skipn (run_of_spaces s) s1)) Hx) as Hr.
  rewrite length_rev in Hr.
  rewrite length_app, length_skipn. simpl length. lia.
Qed.

End PyFacts.

(** ** Sentence breaks: [re.finditer] against the sentence ends of the text *)

Module Breaks.
Import Py Utils ChunkSpec PyFacts.

(** Every end reported by [finditer] is the end of a match of the pattern
    at some offset of the subject. *)
Lemma finditer_ends_match m s pos skip e :
  In e (finditer_ends m s pos skip) ->
  exists s1 s2 n,
    s = s1 ++ s2 /\ m s2 = Some n /\ e = (pos + length s1 + n)%nat.
Proof.
  revert pos skip. induction s as [| c s IH]; intros pos skip He; simpl in He.
  - contradiction.
  - destruct skip as [| k].
    + destruct (m (c :: s)) as [n |] eqn:Hm.
      * destruct He as [He | He].
        -- exists [], (c :: s), n. simpl. repeat split; [assumption | lia].
        -- destruct (IH _ _ He) as (s1 & s2 & n' & Hs & Hm' & He').
           exists (c :: s1), s2, n'. simpl. subst s.
           repeat split; [assumption | lia].
      * destruct (IH _ _ He) as (s1 & s2 & n' & Hs & Hm' & He').
        exists (c :: s1), s2, n'. simpl. subst s.
        repeat split; [assumption | lia].
    + destruct (IH _ _ He) as (s1 & s2 & n' & Hs & Hm' & He').
      exists (c :: s1), s2, n'. simpl. subst s.
      repeat split; [assumption | lia].
Qed.

Lemma punct_spaces_inv p s n :
  punct_spaces p s = Some n ->
  exists rest r, s = p :: rest /\ run_of_spaces rest = S r /\ n = S (S r).
Proof.
  unfold punct_spaces. destruct s as [| c rest]; [discriminate |].
  destruct (N.eqb_spec c p) as [-> |]; [| discriminate].
  destruct (run_of_spaces rest) as [| r] eqn:Hr; [discriminate |].
  intros [= <-]. exists rest, r. repeat split. exact Hr.
Qed.

Lemma blank_line_inv s n :
  blank_line s = Some n -> exists rest, s = nl :: nl :: rest /\ n = 2%nat.
Proof.
  unfold blank_line. destruct s as [| a [| b rest]]; try discriminate.
  destruct (N.eqb_spec a nl) as [-> |]; [| discriminate].
  destruct (N.eqb_spec b nl) as [-> |]; [| discriminate].
  simpl. intros [= <-]. exists rest. split; reflexivity.
Qed.

Lemma terminator_not_space c : terminator c = true -> isspace c = false.
Proof.
  unfold terminator, dot, bang, question. intros H.
  apply orb_true_iff in H. destruct H as [H | H].
  - apply orb_true_iff in H. destruct H as [H | H];
      apply N.eqb_eq in H; subst c; reflexivity.
  - apply N.eqb_eq in H; subst c; reflexivity.
Qed.

(** Soundness of the three punctuation patterns. *)
Lemma punct_end_sound p w e :
  terminator p = true ->
  In e (finditer (punct_spaces p) w) -> after_terminator w e.
Proof.
  intros Hp He. unfold finditer in He.
  destruct (finditer_ends_match _ _ _ _ _ He) as (s1 & s2 & n & Hw & Hm & Hen).
  destruct (punct_spaces_inv _ _ _ Hm) as (rest & r & Hs2 & Hrun & Hn).
  subst s2 n w. simpl in Hen.
  exists (length s1), p.
  split; [rewrite nth_error_app2, Nat.sub_diag by lia; reflexivity |].
  split; [exact Hp |].
  pose proof (run_of_spaces_le_length rest) as Hle.
  split; [rewrite length_app; simpl; lia |].
  intros j x Hj Hx.
  rewrite nth_error_app2 in Hx by lia.
  destruct (j - length s1)%nat as [| k] eqn:Hk; [lia |]. simpl in Hx.
  apply (run_of_spaces_all rest k x); [lia | exact Hx].
Qed.

(** The blank-line pattern: [finditer] reports exactly the ends of the pairs
    of newlines that start an even number of newlines into their run.  The
    scan is followed from any offset: outside a match the newlines passed
    in the current run are even in number unless the run has ended, and
    inside a match they are odd in number and the next character is a
    newline. *)
Lemma newlines_snoc pre c :
  newlines (rev (pre ++ [c])) =
  if (c =? nl)%N then S (newlines (rev pre)) else 0%nat.
Proof. rewrite rev_app_distr. reflexivity. Qed.

Lemma newlines_before_app pre s :
  newlines_before (pre ++ s) (length pre) = newlines (rev pre).
Proof.
  unfold newlines_before.
  rewrite firstn_app, Nat.sub_diag, firstn_all. simpl.
  rewrite app_nil_r. reflexivity.
Qed.

Lemma blank_scan pre s skip e :
  (skip = 0%nat /\
   (Nat.even (newlines (rev pre)) = true \/ newlines s = 0%nat)) \/
  (skip = 1%nat /\
   Nat.even (newlines (rev pre)) = false /\ newlines s <> 0%nat) ->
  In e (finditer_ends blank_line s (length pre) skip) <->
  exists i, (length pre <= i)%nat /\ e = (i + 2)%nat /\
    nth_error (pre ++ s) i = Some nl /\ nth_error (pre ++ s) (S i) = Some nl /\
    Nat.even (newlines_before (pre ++ s) i) = true.
Proof.
  revert pre skip. induction s as [| c s IH]; intros pre skip Hinv.
  - simpl. split; [contradiction |].
    intros (i & Hi & _ & Hn & _). rewrite app_nil_r in Hn.
    assert (i < length pre)%nat by (apply nth_error_Some; congruence). lia.
  - specialize (IH (pre ++ [c])).
    rewrite length_app in IH. simpl in IH. rewrite Nat.add_1_r in IH.
    rewrite <- app_assoc in IH. simpl in IH. rewrite newlines_snoc in IH.
    assert (H0 : nth_error (pre ++ c :: s) (length pre) = Some c)
      by (rewrite nth_error_app2, Nat.sub_diag by lia; reflexivity).
    assert (H1 : nth_error (pre ++ c :: s) (S (length pre)) = nth_error s 0).
    { rewrite nth_error_app2 by lia.
      replace (S (length pre) - length pre)%nat with 1%nat by lia. reflexivity. }
    pose proof (newlines_before_app pre (c :: s)) as Hnb.
    cbn [finditer_ends].
    destruct Hinv as [(-> & Hev) | (-> & Hodd & Hnl)].
    + destruct (blank_line (c :: s)) as [n |] eqn:Hm.
      * destruct (blank_line_inv _ _ Hm) as (rest & Hs & ->).
        injection Hs as -> ->.
        assert (Hr : Nat.even (newlines (rev pre)) = true).
        { destruct Hev as [H | H]; [exact H | simpl in H; discriminate]. }
        specialize (IH 1%nat).
        assert (Hnext : (
          (1 = 0 /\
           (Nat.even (if (nl =? nl)%N then S (newlines (rev pre)) else 0) = true
            \/ newlines (nl :: rest) = 0)) \/
          (1 = 1 /\
           Nat.even (if (nl =? nl)%N then S (newlines (rev pre)) else 0) = false
           /\ newlines (nl :: rest) <> 0))%nat).
        { right. split; [reflexivity |]. split; [| simpl; discriminate].
          rewrite N.eqb_refl, Nat.even_succ, <- Nat.negb_even, Hr. reflexivity. }
        apply IH in Hnext. clear IH. simpl In. rewrite Hnext. split.
        -- intros [<- | (i & Hi & Hrest)].
           ++ exists (length pre). split; [lia |]. split; [lia |].
              split; [exact H0 |]. split; [rewrite H1; reflexivity |].
              rewrite Hnb. exact Hr.
           ++ exists i. split; [lia | exact Hrest].
        -- intros (i & Hi & He & Hrest).
           destruct (Nat.eq_dec i (length pre)) as [-> | Hne]; [left; lia |].
           right. exists i. split; [lia |]. split; [exact He | exact Hrest].
      * specialize (IH 0%nat).
        assert (Hnext : (
          (0 = 0 /\
           (Nat.even (if (c =? nl)%N then S (newlines (rev pre)) else 0) = true
            \/ newlines s = 0)) \/
          (0 = 1 /\
           Nat.even (if (c =? nl)%N then S (newlines (rev pre)) else 0) = false
           /\ newlines s <> 0))%nat).
        { left. split; [reflexivity |].
          destruct (N.eqb_spec c nl) as [-> | Hc]; [| left; reflexivity].
          right. destruct s as [| b s']; [reflexivity |]. simpl.
          destruct (N.eqb_spec b nl) as [-> | Hb]; [| reflexivity].
          simpl in Hm. discriminate. }
        apply IH in Hnext. clear IH. rewrite Hnext. split.
        -- intros (i & Hi & Hrest). exists i. split; [lia | exact Hrest].
        -- intros (i & Hi & He & Ha & Hb & Hc). exists i.
           split; [| auto].
           destruct (Nat.eq_dec i (length pre)) as [-> | Hne]; [| lia].
           exfalso. rewrite H0 in Ha. injection Ha as ->.
           rewrite H1 in Hb. destruct s as [| b s']; [discriminate |].
           simpl in Hb. injection Hb as ->. simpl in Hm. discriminate.
    + specialize (IH 0%nat).
      assert (Hc : c = nl).
      { simpl in Hnl. destruct (N.eqb_spec c nl); congruence. }
      subst c.
      assert (Hnext : (
        (0 = 0 /\
         (Nat.even (if (nl =? nl)%N then S (newlines (rev pre)) else 0) = true
          \/ newlines s = 0)) \/
        (0 = 1 /\
         Nat.even (if (nl =? nl)%N then S (newlines (rev pre)) else 0) = false
         /\ newlines s <> 0))%nat).
      { left. split; [reflexivity |]. left.
        rewrite N.eqb_refl, Nat.even_succ, <- Nat.negb_even, Hodd. reflexivity. }
      apply IH in Hnext. clear IH. rewrite Hnext. split.
      * intros (i & Hi & Hrest). exists i. split; [lia | exact Hrest].
      * intros (i & Hi & He & Ha & Hb & Hc). exists i.
        split; [| auto].
        destruct (Nat.eq_dec i (length pre)) as [-> | Hne]; [| lia].
        exfalso. rewrite Hnb in Hc. congruence.
Qed.

Lemma blank_end_iff w e :
  In e (finditer blank_line w) <-> after_blank_line w e.
Proof.
  unfold finditer, after_blank_line.
  rewrite (blank_scan [] w 0 e) by (left; split; [reflexivity | left; reflexivity]).
  simpl. split.
  - intros (i & _ & H). exists i. exact H.
  - intros (i & H). exists i. split; [lia | exact H].
Qed.

(** Soundness of the blank-line pattern. *)
Lemma blank_end_sound w e :
  In e (finditer blank_line w) -> after_blank_line w e.
Proof. apply blank_end_iff. Qed.

(** Completeness of a punctuation pattern: a terminator followed by
    whitespace is matched, and the match runs to the end of the
    whitespace. *)
Lemma punct_scan_complete p s1 rest r pos skip :
  isspace p = false -> run_of_spaces rest = S r -> (skip <= length s1)%nat ->
  In (pos + length s1 + S (S r))%nat
     (finditer_ends (punct_spaces p) (s1 ++ p :: rest) pos skip).
Proof.
  intros Hp Hrun. revert pos skip.
  induction s1 as [| x s1 IH]; intros pos skip Hskip; simpl in *.
  - assert (skip = 0)%nat as -> by lia.
    rewrite N.eqb_refl, Hrun. left. lia.
  - destruct skip as [| k].
    + destruct (N.eqb_spec x p) as [-> | Hx].
      * pose proof (run_of_spaces_stops s1 p rest Hp) as Hstop.
        destruct (run_of_spaces (s1 ++ p :: rest)) as [| n] eqn:Hn.
        -- replace (pos + S (length s1) + S (S r))%nat
             with (S pos + length s1 + S (S r))%nat by lia.
           apply IH. lia.
        -- right.
           replace (pos + S (length s1) + S (S r))%nat
             with (S pos + length s1 + S (S r))%nat by lia.
           apply IH. simpl. lia.
      * replace (pos + S (length s1) + S (S r))%nat
          with (S pos + length s1 + S (S r))%nat by lia.
        apply IH. lia.
    + replace (pos + S (length s1) + S (S r))%nat
        with (S pos + length s1 + S (S r))%nat by lia.
      apply IH. lia.
Qed.

Lemma punct_end_complete w p :
  after_terminator w p ->
  exists c e, terminator c = true /\ In e (finditer (punct_spaces c) w) /\ (p <= e)%nat.
Proof.
  intros (i & c & Hi & Hc & Hp & Hall).
  destruct (nth_error_split w i Hi) as (s1 & rest & Hw & Hlen).
  assert (Hrun : (p - i - 1 <= run_of_spaces rest)%nat).
  { apply run_of_spaces_covers.
    - subst w. rewrite length_app in Hp. simpl in Hp. lia.
    - intros j x Hj Hx. apply (Hall (i + 1 + j)%nat x); [lia |].
      subst w. rewrite nth_error_app2 by lia.
      replace (i + 1 + j - length s1)%nat with (S j) by lia. exact Hx. }
  destruct (run_of_spaces rest) as [| r] eqn:Hr; [lia |].
  exists c, (length s1 + S (S r))%nat.
  split; [exact Hc |]. split; [| lia].
  subst w. unfold finditer.
  apply (punct_scan_complete c s1 rest r 0 0);
    [apply terminator_not_space; exact Hc | exact Hr | lia].
Qed.

(** Completeness of the blank-line pattern. *)
Lemma blank_end_complete w p :
  after_blank_line w p -> In p (finditer blank_line w).
Proof. apply blank_end_iff. Qed.

End Breaks.

(** ** The chunker *)

Module ChunkFacts.
Import Py Utils ChunkSpec PyFacts Breaks.

Lemma fold_max_ge (l : list Z) (x : Z) :
  x <= fold_left Z.max l x /\ forall y, In y l -> y <= fold_left Z.max l x.
Proof.
  revert x. induction l as [| a l IH]; intros x; simpl.
  - split; [lia | contradiction].
  - destruct (IH (Z.max x a)) as [H1 H2].
    split; [lia |].
    intros y [-> | Hy]; [lia | apply H2; exact Hy].
Qed.

Lemma fold_max_in (l : list Z) (x : Z) :
  fold_left Z.max l x = x \/ In (fold_left Z.max l x) l.
Proof.
  revert x. induction l as [| a l IH]; intros x; simpl.
  - left. reflexivity.
  - destruct (IH (Z.max x a)) as [H | H].
    + rewrite H. destruct (Z.max_spec x a) as [[_ ->] | [_ ->]]; auto.
    + right. right. exact H.
Qed.

Lemma max_list_in l : l <> [] -> In (max_list l) l.
Proof.
  destruct l as [| x l]; [congruence |]. intros _. simpl.
  destruct (fold_max_in l x) as [-> | H]; auto.
Qed.

Lemma max_list_ge l y : In y l -> y <= max_list l.
Proof.
  destruct l as [| x l]; [contradiction |]. simpl.
  destruct (fold_max_ge l x) as [H1 H2].
  intros [<- | Hy]; [exact H1 | apply H2; exact Hy].
Qed.

Lemma truthy_false {A} (l : list A) : truthy l = false <-> l = [].
Proof. destruct l; simpl; split; congruence. Qed.

Lemma truthy_true {A} (l : list A) : truthy l = true <-> l <> [].
Proof. destruct l; simpl; split; congruence. Qed.

Lemma sentence_end_bounds w p : sentence_end w p -> (2 <= p <= length w)%nat.
Proof.
  intros [(i & c & _ & _ & H & _) | (i & -> & _ & H & _)]; [lia |].
  assert (S i < length w)%nat by (apply nth_error_Some; congruence). lia.
Qed.

Lemma in_patterns m :
  In m patterns <->
  m = punct_spaces dot \/ m = punct_spaces bang \/ m = punct_spaces question
  \/ m = blank_line.
Proof. unfold patterns. simpl. intuition congruence. Qed.

Lemma in_sentence_breaks t ss e b :
  In b (sentence_breaks t ss e) <->
  exists m p, In m patterns /\ In p (finditer m (slice t ss e)) /\ b = ss + Z.of_nat p.
Proof.
  unfold sentence_breaks. rewrite in_flat_map. split.
  - intros (m & Hm & Hb). apply in_map_iff in Hb. destruct Hb as (p & <- & Hp).
    exists m, p. auto.
  - intros (m & p & Hm & Hp & ->). exists m. split; [exact Hm |].
    apply in_map_iff. exists p. auto.
Qed.

(** Every break the code collects is a sentence end of the window. *)
Lemma break_sound t ss e b :
  In b (sentence_breaks t ss e) ->
  exists p, b = ss + Z.of_nat p /\ sentence_end (slice t ss e) p.
Proof.
  intros Hb. apply in_sentence_breaks in Hb.
  destruct Hb as (m & p & Hm & Hp & ->). exists p. split; [reflexivity |].
  apply in_patterns in Hm.
  destruct Hm as [-> | [-> | [-> | ->]]].
  - left. apply (punct_end_sound dot); [reflexivity | exact Hp].
  - left. apply (punct_end_sound bang); [reflexivity | exact Hp].
  - left. apply (punct_end_sound question); [reflexivity | exact Hp].
  - right. apply blank_end_sound. exact Hp.
Qed.

(** Every terminator followed by whitespace is reached by some break. *)
Lemma break_complete_terminator t ss e p :
  after_terminator (slice t ss e) p ->
  exists b, In b (sentence_breaks t ss e) /\ ss + Z.of_nat p <= b.
Proof.
  intros Hp.
  destruct (punct_end_complete _ _ Hp) as (c & e' & Hc & He & Hle).
  exists (ss + Z.of_nat e'). split; [| lia].
  apply in_sentence_breaks. exists (punct_spaces c), e'.
  split; [| auto].
  apply in_patterns. unfold terminator in Hc.
  apply orb_true_iff in Hc. destruct Hc as [Hc | Hc].
  - apply orb_true_iff in Hc. destruct Hc as [Hc | Hc];
      apply N.eqb_eq in Hc; subst c; auto.
  - apply N.eqb_eq in Hc; subst c; auto.
Qed.

(** Every blank line is a break. *)
Lemma break_complete_blank t ss e p :
  after_blank_line (slice t ss e) p ->
  In (ss + Z.of_nat p) (sentence_breaks t ss e).
Proof.
  intros Hp. apply blank_end_complete in Hp.
  apply in_sentence_breaks. exists blank_line, p.
  split; [apply in_patterns; auto | auto].
Qed.

(** Every sentence end is reached by some break. *)
Lemma break_complete t ss e p :
  sentence_end (slice t ss e) p ->
  exists b, In b (sentence_breaks t ss e) /\ ss + Z.of_nat p <= b.
Proof.
  intros [Hp | Hp].
  - apply break_complete_terminator. exact Hp.
  - exists (ss + Z.of_nat p). split; [apply break_complete_blank; exact Hp | lia].
Qed.

(** Where the cut falls, for a window inside the text. *)
Lemma cut_point_raw t mcs start :
  len t <= start + mcs -> cut_point t mcs start = start + mcs.
Proof.
  intros H. unfold cut_point.
  destruct (Z.ltb_spec (start + mcs) (len t)); [lia | reflexivity].
Qed.

Lemma cut_point_bounds t mcs start :
  0 <= start -> 1 <= mcs -> start < cut_point t mcs start <= start + mcs.
Proof.
  intros Hs Hm. unfold cut_point.
  destruct (Z.ltb_spec (start + mcs) (len t)) as [Hlt | Hge]; [| lia].
  set (ss := Z.max (start + mcs - 200) start).
  destruct (truthy (sentence_breaks t ss (start + mcs))) eqn:Hb; [| lia].
  apply truthy_true in Hb. apply max_list_in in Hb.
  destruct (break_sound _ _ _ _ Hb) as (p & -> & Hp).
  apply sentence_end_bounds in Hp.
  assert (Hlen : len (slice t ss (start + mcs)) = start + mcs - ss).
  { apply length_slice_inside; subst ss; lia. }
  unfold len in Hlen. subst ss. lia.
Qed.

(** *** The loop *)

Lemma next_start_advances e ov start : start + 1 <= next_start e ov start.
Proof. unfold next_start. lia. Qed.

Lemma chunk_windows_step fuel t mcs ov start :
  start < len t ->
  chunk_windows (S fuel) t mcs ov start =
  let end_ := cut_point t mcs start in
  let start' := next_start end_ ov start in
  if start' >=? len t then Some [(start, end_)]
  else option_map (cons (start, end_)) (chunk_windows fuel t mcs ov start').
Proof.
  intros H. simpl. destruct (Z.ltb_spec start (len t)); [reflexivity | lia].
Qed.

Lemma chunk_windows_done fuel t mcs ov start :
  len t <= start -> chunk_windows fuel t mcs ov start = Some [].
Proof.
  intros H. destruct fuel; simpl;
    destruct (Z.ltb_spec start (len t)); (reflexivity || lia).
Qed.

(** The chunks are what the windows yield, in order. *)
Lemma chunk_loop_windows fuel t mcs ov start acc :
  chunk_loop fuel t mcs ov start acc =
  option_map (fun ws => acc ++ flat_map (chunk_of t) ws)
             (chunk_windows fuel t mcs ov start).
Proof.
  revert start acc. induction fuel as [| fuel IH]; intros start acc; simpl.
  - destruct (start <? len t); simpl; [reflexivity | rewrite app_nil_r; reflexivity].
  - destruct (start <? len t); simpl; [| rewrite app_nil_r; reflexivity].
    set (e := cut_point t mcs start).
    destruct (next_start e ov start >=? len t).
    + simpl. unfold chunk_of. simpl fst. simpl snd.
      destruct (truthy (strip (slice t start e)));
        simpl; rewrite ?app_nil_r; reflexivity.
    + rewrite IH.
      destruct (chunk_windows fuel t mcs ov (next_start e ov start)) as [ws |];
        simpl; [| reflexivity].
      f_equal. unfold chunk_of at 2. simpl fst. simpl snd.
      destruct (truthy (strip (slice t start e))); simpl;
        [rewrite <- app_assoc |]; reflexivity.
Qed.

(** The loop ends: with fuel for one iteration per remaining character it
    never runs out, since every iteration moves [start] forward. *)
Lemma chunk_windows_total fuel t mcs ov start :
  (Z.to_nat (len t - start) <= fuel)%nat ->
  exists ws, chunk_windows fuel t mcs ov start = Some ws /\
             (length ws <= Z.to_nat (len t - start))%nat.
Proof.
  revert start. induction fuel as [| fuel IH]; intros start Hfuel.
  - exists []. rewrite chunk_windows_done by lia. split; [reflexivity | simpl; lia].
  - destruct (Z.lt_ge_cases start (len t)) as [Hlt | Hge].
    + rewrite chunk_windows_step by assumption. cbv zeta.
      set (e := cut_point t mcs start).
      pose proof (next_start_advances e ov start) as Hadv.
      destruct (Z.geb_spec (next_start e ov start) (len t)) as [Hbr | Hgo].
      * exists [(start, e)]. split; [reflexivity | simpl; lia].
      * destruct (IH (next_start e ov start)) as (ws & Hws & Hlen); [lia |].
        rewrite Hws. simpl. exists ((start, e) :: ws).
        split; [reflexivity | simpl; lia].
    + exists []. rewrite chunk_windows_done by lia. split; [reflexivity | simpl; lia].
Qed.

(** Each window starts inside the text and ends at the cut point of its
    start; the starts advance. *)
Lemma chunk_windows_inv fuel t mcs ov start ws :
  chunk_windows fuel t mcs ov start = Some ws ->
  Forall (fun w => start <= fst w < len t /\ snd w = cut_point t mcs (fst w)) ws
  /\ advancing ws
  /\ match ws with w :: _ => fst w = start | [] => True end.
Proof.
  revert start ws. induction fuel as [| fuel IH]; intros start ws H.
  - simpl in H. destruct (start <? len t); [discriminate |].
    injection H as <-. simpl. auto.
  - destruct (Z.lt_ge_cases start (len t)) as [Hlt | Hge].
    + rewrite chunk_windows_step in H by assumption. cbv zeta in H.
      set (e := cut_point t mcs start) in *.
      pose proof (next_start_advances e ov start) as Hadv.
      destruct (next_start e ov start >=? len t).
      * injection H as <-. split; [| simpl; auto].
        constructor; [simpl; split; [lia | reflexivity] | constructor].
      * destruct (chunk_windows fuel t mcs ov (next_start e ov start))
          as [rest |] eqn:Hrest; [| discriminate].
        simpl in H. injection H as <-.
        destruct (IH _ _ Hrest) as (Hall & Hadv' & Hhead).
        split; [| split; [| reflexivity]].
        -- constructor; [simpl; split; [lia | reflexivity] |].
           eapply Forall_impl; [| exact Hall]. simpl. intros w Hw. lia.
        -- simpl. split; [| exact Hadv'].
           destruct rest as [| w2 rest]; [exact I |]. simpl in Hhead. lia.
    + rewrite chunk_windows_done in H by lia. injection H as <-. simpl. auto.
Qed.

(** Every offset from [start] on lies in a window, when the windows are not
    empty and do not leave gaps. *)
Lemma chunk_windows_cover fuel t mcs ov start ws :
  1 <= mcs -> 0 <= ov -> 0 <= start ->
  chunk_windows fuel t mcs ov start = Some ws ->
  forall i, start <= i < len t -> exists w, In w ws /\ fst w <= i < snd w.
Proof.
  intros Hm Ho. revert start ws.
  induction fuel as [| fuel IH]; intros start ws Hs H i Hi.
  - simpl in H. destruct (Z.ltb_spec start (len t)); [discriminate | lia].
  - rewrite chunk_windows_step in H by lia. cbv zeta in H.
    pose proof (cut_point_bounds t mcs start Hs Hm) as Hcut.
    remember (cut_point t mcs start) as e eqn:Hcp.
    unfold next_start in H.
    destruct (Z.geb_spec (Z.max (e - ov) (start + 1)) (len t)) as [Hbr | Hgo].
    + injection H as <-. exists (start, e). simpl. split; [auto | lia].
    + destruct (chunk_windows fuel t mcs ov (Z.max (e - ov) (start + 1)))
        as [rest |] eqn:Hrest; [| discriminate].
      simpl in H. injection H as <-.
      destruct (Z.lt_ge_cases i e) as [Hin | Hout].
      * exists (start, e). simpl. split; [auto | lia].
      * destruct (IH (Z.max (e - ov) (start + 1)) rest) with (i := i)
          as (w & Hw & Hiw); [lia | exact Hrest | lia |].
        exists w. split; [right; exact Hw | exact Hiw].
Qed.

(** Without sentence breaks the windows step by [max_chunk_size - overlap]. *)
Lemma chunk_windows_bound fuel t mcs ov start ws :
  ov < mcs -> start <= len t ->
  chunk_windows fuel t mcs ov start = Some ws ->
  Forall (fun w => snd w = fst w + mcs) ws ->
  Z.of_nat (length ws) <= ceil_div (len t - start) (mcs - ov).
Proof.
  intros Hd. unfold ceil_div. revert start ws.
  induction fuel as [| fuel IH]; intros start ws Hs H Hraw.
  - simpl in H. destruct (Z.ltb_spec start (len t)); [discriminate |].
    injection H as <-. simpl. apply Z.div_pos; lia.
  - destruct (Z.lt_ge_cases start (len t)) as [Hlt | Hge].
    + rewrite chunk_windows_step in H by assumption. cbv zeta in H.
      remember (cut_point t mcs start) as e eqn:Hcp.
      assert (Hone : 1 <= (len t - start + (mcs - ov) - 1) / (mcs - ov)).
      { apply Z.div_le_lower_bound; lia. }
      unfold next_start in H.
      destruct (Z.geb_spec (Z.max (e - ov) (start + 1)) (len t)) as [Hbr | Hgo].
      * injection H as <-. simpl length. lia.
      * destruct (chunk_windows fuel t mcs ov (Z.max (e - ov) (start + 1)))
          as [rest |] eqn:Hrest; [| discriminate].
        simpl in H. injection H as <-.
        inversion Hraw as [| w l He Hrest' Heq]. simpl in He.
        replace (Z.max (e - ov) (start + 1)) with (start + (mcs - ov)) in * by lia.
        assert (Hnext : start + (mcs - ov) <= len t) by lia.
        specialize (IH _ _ Hnext Hrest Hrest').
        replace (len t - start + (mcs - ov) - 1)
          with (len t - (start + (mcs - ov)) + (mcs - ov) - 1 + 1 * (mcs - ov)) by lia.
        rewrite Z.div_add by lia.
        simpl length. lia.
    + rewrite chunk_windows_done in H by lia. injection H as <-.
      simpl. apply Z.div_pos; lia.
Qed.

Lemma chunk_of_in t w c :
  In c (chunk_of t w) <-> c = strip (slice t (fst w) (snd w)) /\ c <> [].
Proof.
  unfold chunk_of.
  destruct (truthy (strip (slice t (fst w) (snd w)))) eqn:H; simpl.
  - apply truthy_true in H. split.
    + intros [<- | []]. auto.
    + intros [-> _]. auto.
  - apply truthy_false in H. split; [contradiction |].
    intros [-> Hne]. congruence.
Qed.

End ChunkFacts.

(** ** Claims about [chunk_text] *)

Module ChunkClaims.
Import Py Utils ChunkSpec PyFacts Breaks ChunkFacts.

(** C6. A text no longer than [max_chunk_size] comes back exactly as it was
    given: the early return of line 27 does not trim it and does not drop a
    whitespace-only text, while the loop of lines 46-48 does both for the
    chunks of a longer text. *)
Theorem C6_short_text_is_returned_untrimmed :
  (forall t mcs ov, t <> [] -> len t <= mcs -> chunk_text t mcs ov = Some [t]) /\
  chunk_text (str " a ") 1000 200 = Some [str " a "] /\
  strip (str " a ") = str "a" /\
  chunk_text (str "  ") 1000 200 = Some [str "  "] /\
  strip (str "  ") = [] /\
  chunk_text (str " a    ") 3 0 = Some [str "a"].
Proof.
  split; [| repeat split; reflexivity].
  intros t mcs ov Hne Hlen. unfold chunk_text.
  destruct (Z.leb_spec (len t) mcs) as [_ | Hgt]; [| lia].
  rewrite orb_true_r. destruct t; [congruence | reflexivity].
Qed.




(** C8, as stated, fails: the search goes back 200 characters whatever the
    overlap is.  With [overlap = 2] the last two characters of the first
    window of "a. bcdefgh" hold no break, yet the cut is after "a. ". *)
Lemma C8_search_ignores_overlap :
  slice (str "a. bcdefgh") (8 - 2) 8 = str "ef" /\
  sentence_breaks (str "a. bcdefgh") (8 - 2) 8 = [] /\
  cut_point_in_overlap (str "a. bcdefgh") 8 2 0 = 8 /\
  cut_point (str "a. bcdefgh") 8 0 = 3 /\
  windows_of (str "a. bcdefgh") 8 2 = Some [(0, 3); (1, 3); (2, 10); (8, 16)] /\
  chunk_text (str "a. bcdefgh") 8 2 = Some [str "a."; str "."; str "bcdefgh"; str "gh"].
Proof. repeat split; reflexivity. Qed.

(** C8, amended.  Every window of every call, for every overlap, is cut as
    [cut_as_specified] says: at the furthest sentence end of the last 200
    characters of the window, not of the last [overlap], and at the raw end
    when the window reaches the end of the text or those characters hold no
    sentence end.  A sentence end follows a terminator and the whitespace
    after it, or a blank line, the newlines of a run being taken in pairs
    from its start. *)
Theorem C8_cut_at_furthest_break_of_last_200 t mcs ov ws s e :
  windows_of t mcs ov = Some ws -> In (s, e) ws -> cut_as_specified t mcs s e.
Proof.
  intros Hws Hin. unfold windows_of in Hws.
  destruct (negb (truthy t) || (len t <=? mcs)).
  { injection Hws as <-. contradiction. }
  destruct (chunk_windows_inv _ _ _ _ _ _ Hws) as (Hall & _ & _).
  rewrite Forall_forall in Hall. destruct (Hall _ Hin) as [_ He].
  simpl in He. subst e. clear Hall Hin Hws.
  unfold cut_as_specified. cbv zeta. split.
  - apply cut_point_raw.
  - intros Hlt. unfold cut_point.
    destruct (Z.ltb_spec (s + mcs) (len t)) as [_ | Hge]; [| lia].
    set (ss := Z.max (s + mcs - 200) s).
    destruct (truthy (sentence_breaks t ss (s + mcs))) eqn:Hb.
    + apply truthy_true in Hb. split.
      * intros Hnone. exfalso.
        destruct (sentence_breaks t ss (s + mcs)) as [| b l] eqn:Hl; [congruence |].
        destruct (break_sound t ss (s + mcs) b) as (p & _ & Hp);
          [rewrite Hl; left; reflexivity |].
        exact (Hnone p Hp).
      * intros _.
        pose proof (max_list_in _ Hb) as Hmax.
        destruct (break_sound _ _ _ _ Hmax) as (p & Hcut & Hp).
        rewrite Hcut.
        pose proof (sentence_end_bounds _ _ Hp) as Hbd.
        split; [unfold len; lia |]. split.
        -- replace (Z.to_nat (ss + Z.of_nat p - ss)) with p by lia. exact Hp.
        -- rewrite <- Hcut. intros q Hq.
           destruct (break_complete _ _ _ _ Hq) as (b & Hin & Hle).
           pose proof (max_list_ge _ _ Hin). lia.
    + apply truthy_false in Hb. split; [reflexivity |].
      intros (p & Hp). exfalso.
      destruct (break_complete _ _ _ _ Hp) as (b & Hin & _).
      rewrite Hb in Hin. contradiction.
Qed.

(** The theorem of C8 on the first window of a text with three newlines in
    a row, in windows of eight. *)
Lemma C8_cut_at_furthest_break_of_last_200_witness :
  cut_as_specified SampleClients.three_newlines 8 0 4.
Proof.
  apply (C8_cut_at_furthest_break_of_last_200 SampleClients.three_newlines 8 0
           [(0, 4); (4, 12)] 0 4).
  - reflexivity.
  - simpl. auto.
Defined.

(** Blank lines are taken in pairs: of three newlines in a row the first two
    are a sentence end and the last two are not, and the window is cut
    after the first two. *)
Example blank_lines_are_taken_in_pairs :
  let w := slice SampleClients.three_newlines 0 8 in
  after_blank_line w 4 /\ ~ after_blank_line w 5 /\
  cut_point SampleClients.three_newlines 8 0 = 4 /\
  windows_of SampleClients.three_newlines 8 0 = Some [(0, 4); (4, 12)].
Proof.
  cbv zeta. split; [| split; [| split]].
  - exists 2%nat. repeat split; reflexivity.
  - intros (i & Hp & _ & _ & Hev).
    assert (i = 3)%nat as -> by lia. vm_compute in Hev. discriminate.
  - reflexivity.
  - reflexivity.
Qed.

(** C9, as stated, fails in its bound: a sentence break shortens a window,
    so the next one starts earlier than [max_chunk_size - overlap] further.
    Fifteen characters in windows of four take five iterations, not four. *)
Lemma C9_more_iterations_than_the_bound :
  windows_of (str "a. b. c. d. e. ") 4 0
    = Some [(0, 3); (3, 6); (6, 9); (9, 12); (12, 16)] /\
  ceil_div (len (str "a. b. c. d. e. ")) (4 - 0) = 4 /\
  chunk_text (str "a. b. c. d. e. ") 4 0
    = Some [str "a."; str "b."; str "c."; str "d."; str "e."].
Proof. repeat split; reflexivity. Qed.

(** Without a sentence break the bound is reached: ten characters in steps
    of three. *)
Example chunk_bound_is_reached :
  windows_of (str "abcdefghij") 4 1 = Some [(0, 4); (3, 7); (6, 10); (9, 13)] /\
  ceil_div (len (str "abcdefghij")) (4 - 1) = 4.
Proof. split; reflexivity. Qed.

(** C9, amended.  For every text, [max_chunk_size] and [overlap] the call
    returns: the start advances by at least one on every iteration, so
    there are at most [len(T)] of them; when [overlap < max_chunk_size] and
    no window is shortened by a sentence break, there are at most
    [ceil(len(T) / (max_chunk_size - overlap))]. *)
Theorem C9_chunk_text_terminates t mcs ov :
  exists chunks ws,
    chunk_text t mcs ov = Some chunks /\
    windows_of t mcs ov = Some ws /\
    advancing ws /\
    (length ws <= length t)%nat /\
    (ov < mcs -> Forall (fun w => snd w = fst w + mcs) ws ->
     Z.of_nat (length ws) <= ceil_div (len t) (mcs - ov)).
Proof.
  unfold chunk_text, windows_of.
  destruct (negb (truthy t) || (len t <=? mcs)).
  - exists (if truthy t then [t] else []), [].
    repeat split; simpl; try lia.
    intros Hd _. unfold ceil_div. apply Z.div_pos; unfold len; lia.
  - destruct (chunk_windows_total (length t) t mcs ov 0) as (ws & Hws & Hlen);
      [unfold len; lia |].
    exists (flat_map (chunk_of t) ws), ws.
    split; [rewrite chunk_loop_windows, Hws; reflexivity |].
    split; [exact Hws |].
    destruct (chunk_windows_inv _ _ _ _ _ _ Hws) as (_ & Hadv & _).
    split; [exact Hadv |].
    split; [unfold len in Hlen; lia |].
    intros Hd Hraw.
    pose proof (chunk_windows_bound _ _ _ _ _ _ Hd (len_nonneg t) Hws Hraw) as Hb.
    rewrite Z.sub_0_r in Hb. exact Hb.
Qed.

End ChunkClaims.

(** ** The store *)

Module StoreFacts.
Import Py Store PyFacts.

Section WithFloats.

Context {F : Type}.
Variable normalize_L2 : list F -> list F.

Local Abbreviation add_documents := (Store.add_documents normalize_L2).
Local Abbreviation committed := (Store.committed normalize_L2).
Local Abbreviation appended := (Store.appended normalize_L2).

Lemma world_eta (w : World F) : mkWorld (self w) (disk w) (stdout w) = w.
Proof. destruct w. reflexivity. Qed.

(** [_save_index] never touches the object. *)
Lemma self_save_index fault (w : World F) : self (_save_index fault w) = self w.
Proof.
  unfold _save_index.
  destruct (index (self w)); destruct fault; reflexivity.
Qed.

(** A failing save prints and returns; the metadata artifact is left as it
    was or truncated. *)
Lemma save_index_fault fault (w : World F) ix :
  index (self w) = Some ix -> fault <> NoFault ->
  stdout (_save_index fault w) = stdout w ++ [ErrorSavingIndex] /\
  (metadata_file (disk (_save_index fault w)) = metadata_file (disk w) \/
   metadata_file (disk (_save_index fault w)) = Unreadable).
Proof.
  intros Hix Hf. unfold _save_index. rewrite Hix.
  destruct fault; simpl; auto. congruence.
Qed.

(** A save that goes through writes both artifacts. *)
Lemma save_index_ok (w : World F) ix :
  index (self w) = Some ix ->
  _save_index NoFault w =
  mkWorld (self w)
    (mkDisk (Holds ix)
       (Holds (mkSnapshot (texts (self w)) (metadatas (self w)) (dimension (self w)))))
    (stdout w).
Proof. intros Hix. unfold _save_index. rewrite Hix. reflexivity. Qed.

(** The three ways a call of [add_documents] ends: nothing to add; an error
    raised before anything is changed; everything appended, then saved. *)
Lemma add_documents_spec fault (w : World F) ts es ms :
  (add_documents fault w ts es ms = (Returned, w) /\ (ts = [] \/ es = [])) \/
  (add_documents fault w ts es ms = (Raised add_error, w) /\
   ts <> [] /\ es <> [] /\
   (np_array es = None \/
    exists width ix,
      np_array es = Some width /\ index (self w) = Some ix /\ d ix <> width)) \/
  (exists width,
     ts <> [] /\ es <> [] /\ np_array es = Some width /\
     (forall ix, index (self w) = Some ix -> d ix = width) /\
     add_documents fault w ts es ms =
     (Returned,
      _save_index fault
        (mkWorld (committed (self w) width ts es ms) (disk w) (stdout w)))).
Proof.
  unfold Store.add_documents.
  destruct ts as [| t ts]; [left; auto |].
  destruct es as [| e es]; [left; auto |].
  right. cbn [truthy negb orb].
  destruct (np_array (e :: es)) as [width |] eqn:Hnp.
  - destruct (index (self w)) as [ix |] eqn:Hix.
    + rewrite Hix. unfold IndexFlatIP_add.
      destruct (Z.eqb_spec width (d ix)) as [Heq | Hne].
      * right. exists width. repeat split; try congruence.
        unfold Store.committed, kept, rows. rewrite Hix.
        rewrite <- Heq. reflexivity.
      * left. rewrite world_eta. repeat split; try congruence.
        right. exists width, ix. auto.
    + right. exists width. cbn [index]. unfold IndexFlatIP_add. cbn [d xb].
      rewrite Z.eqb_refl.
      repeat split; try congruence.
      unfold Store.committed, kept, rows. rewrite Hix.
      cbn [dimension texts metadatas app]. reflexivity.
  - left. repeat split; try congruence. auto.
Qed.

(** With something to add and embeddings that the index accepts, the call
    commits. *)
Lemma add_documents_accepted fault (w : World F) ts es ms :
  ts <> [] -> es <> [] -> accepted (self w) es ->
  exists width,
    np_array es = Some width /\
    add_documents fault w ts es ms =
    (Returned,
     _save_index fault
       (mkWorld (committed (self w) width ts es ms) (disk w) (stdout w))).
Proof.
  intros Hts Hes (width & Hnp & Hd).
  destruct (add_documents_spec fault w ts es ms)
    as [[_ [? | ?]] | [(_ & _ & _ & Hbad) | (width' & _ & _ & Hnp' & _ & Hadd)]];
    try contradiction.
  - destruct Hbad as [Hnone | (w1 & ix & Hnp1 & Hix & Hne)]; [congruence |].
    exfalso. apply Hne. rewrite (Hd ix Hix). congruence.
  - exists width'. auto.
Qed.

(** The snapshot of an add that was saved loads back to the same object. *)
Lemma reload_after_add (w : World F) ts es ms dim :
  ts <> [] -> es <> [] -> accepted (self w) es ->
  let w' := snd (add_documents NoFault w ts es ms) in
  self (__init__ dim (disk w')) = self w'.
Proof.
  intros Hts Hes Hacc. cbv zeta.
  destruct (add_documents_accepted NoFault w ts es ms Hts Hes Hacc)
    as (width & _ & ->).
  cbn [snd]. erewrite save_index_ok by reflexivity.
  unfold Store.committed.
  assert (Htexts : truthy (texts (kept (self w)) ++ ts) = true).
  { destruct (texts (kept (self w)) ++ ts) eqn:Happ; [| reflexivity].
    apply app_eq_nil in Happ. destruct Happ. contradiction. }
  unfold __init__, _load_index.
  cbn [self disk metadata_file index_file texts metadatas dimension index
       snap_texts snap_metadatas snap_dimension exists_ andb].
  rewrite Htexts. reflexivity.
Qed.

(** On an aligned store a committed add appends to all three sequences. *)
Lemma committed_appended (s : VectorStore F) width ts es ms :
  aligned s -> appended s (committed s width ts es ms) ts es ms.
Proof.
  intros [Ht Hm]. unfold Store.appended, Store.committed, kept, rows in *.
  destruct (index s); simpl; [auto |].
  simpl in Ht, Hm.
  apply length_zero_iff_nil in Ht, Hm. rewrite Ht, Hm. auto.
Qed.

(** Appending equally long sequences keeps the store aligned, moves
    nothing, and puts the i-th of each at the same new position. *)
Lemma appended_positions (s s' : VectorStore F) ts es ms :
  aligned s -> appended s s' ts es ms ->
  length ts = length es -> length ms = length es ->
  aligned s' /\
  (length (rows s') = length (rows s) + length es)%nat /\
  (forall n, (n < length (rows s))%nat -> entry s' n = entry s n) /\
  (forall i, (i < length es)%nat ->
     entry s' (length (rows s) + i) =
     (option_map normalize_L2 (nth_error es i), nth_error ts i, nth_error ms i)).
Proof.
  intros [Ht Hm] (Hr' & Ht' & Hm') Hts Hms.
  unfold aligned, entry. rewrite Hr', Ht', Hm'.
  rewrite !length_app, length_map.
  split; [split; lia |]. split; [reflexivity |]. split.
  - intros n Hn. rewrite !nth_error_app1 by lia. reflexivity.
  - intros i Hi.
    rewrite nth_error_app2 by lia.
    rewrite <- Ht at 1. rewrite nth_error_app2 by lia.
    rewrite <- Hm at 1. rewrite nth_error_app2 by lia.
    rewrite nth_error_map.
    repeat f_equal; lia.
Qed.

(** *** Search *)

Variable inner_product : list F -> list F -> F.
Variable fle : F -> F -> bool.
Variable padding_score : F.

Local Abbreviation insert_desc := (Store.insert_desc fle).
Local Abbreviation sort_desc := (Store.sort_desc fle).
Local Abbreviation scored := (Store.scored inner_product).
Local Abbreviation desc := (Store.desc fle).
Local Abbreviation from_rows := (Store.from_rows inner_product).

Lemma length_insert_desc e l : length (insert_desc e l) = S (length l).
Proof.
  induction l as [| h l IH]; simpl; [reflexivity |].
  destruct (fle (fst e) (fst h) && negb (fle (fst h) (fst e)));
    simpl; [rewrite IH |]; reflexivity.
Qed.

Lemma length_sort_desc l : length (sort_desc l) = length l.
Proof.
  induction l as [| h l IH]; simpl; [reflexivity |].
  unfold Store.sort_desc in *. simpl. rewrite length_insert_desc, IH. reflexivity.
Qed.

Lemma in_insert_desc x e l : In x (insert_desc e l) -> x = e \/ In x l.
Proof.
  induction l as [| h l IH]; simpl.
  - intros [<- | []]. auto.
  - destruct (fle (fst e) (fst h) && negb (fle (fst h) (fst e))); simpl.
    + intros [<- | H]; [auto | destruct (IH H); auto].
    + intros [<- | [<- | H]]; auto.
Qed.

Lemma in_sort_desc x l : In x (sort_desc l) -> In x l.
Proof.
  induction l as [| h l IH]; simpl; [auto |].
  unfold Store.sort_desc in *. simpl. intros H.
  destruct (in_insert_desc _ _ _ H) as [<- | H']; auto.
Qed.

Section Ordered.

Hypothesis fle_total : forall a b, fle a b = true \/ fle b a = true.

Lemma hdrel_insert_desc a e l :
  HdRel desc a l -> desc a e -> HdRel desc a (insert_desc e l).
Proof.
  intros Hl He. destruct l as [| h l]; simpl.
  - constructor. exact He.
  - destruct (fle (fst e) (fst h) && negb (fle (fst h) (fst e))); constructor.
    + inversion Hl. assumption.
    + exact He.
Qed.

Lemma sorted_insert_desc e l : Sorted desc l -> Sorted desc (insert_desc e l).
Proof.
  induction l as [| h l IH]; intros Hs; simpl.
  - repeat constructor.
  - inversion Hs as [| ? ? Hl Hh]; subst.
    destruct (fle (fst e) (fst h) && negb (fle (fst h) (fst e))) eqn:Hlt.
    + apply andb_true_iff in Hlt. destruct Hlt as [Hle _].
      constructor; [apply IH; exact Hl |].
      apply hdrel_insert_desc; [exact Hh | exact Hle].
    + constructor; [exact Hs |]. constructor. unfold desc.
      destruct (fle (fst h) (fst e)) eqn:Hhe; [reflexivity |].
      rewrite andb_true_r in Hlt.
      destruct (fle_total (fst e) (fst h)); congruence.
Qed.

Lemma sorted_sort_desc l : Sorted desc (sort_desc l).
Proof.
  induction l as [| h l IH]; simpl; [constructor |].
  apply sorted_insert_desc. exact IH.
Qed.

End Ordered.

Lemma sorted_firstn {A} (R : A -> A -> Prop) n l :
  Sorted R l -> Sorted R (firstn n l).
Proof.
  revert l. induction n as [| n IH]; intros l Hs; simpl; [constructor |].
  destruct l as [| h l]; [constructor |].
  inversion Hs as [| ? ? Hl Hh]; subst.
  constructor; [apply IH; exact Hl |].
  destruct n; simpl; [constructor |].
  destruct l; [constructor |]. inversion Hh. constructor. assumption.
Qed.

Lemma sorted_scores l :
  Sorted desc l -> Sorted (fun a b => fle b a = true) (map fst l).
Proof.
  induction 1 as [| h l Hl IH Hh]; simpl; constructor; [exact IH |].
  destruct Hh; simpl; constructor. assumption.
Qed.

Lemma in_scored q rs pos sc idx :
  In (sc, idx) (scored q rs pos) ->
  exists (n : nat) row,
    idx = pos + Z.of_nat n /\ nth_error rs n = Some row /\ sc = inner_product q row.
Proof.
  revert pos. induction rs as [| r rs IH]; intros pos; simpl; [contradiction |].
  intros [[= <- <-] | H].
  - exists 0%nat, r. simpl. repeat split. lia.
  - destruct (IH _ H) as (n & row & -> & Hn & ->).
    exists (S n), row. simpl. repeat split; [lia | exact Hn].
Qed.

Lemma length_scored q rs pos : length (scored q rs pos) = length rs.
Proof.
  revert pos. induction rs as [| r rs IH]; intros pos; simpl; [| rewrite IH]; reflexivity.
Qed.

Lemma collect_aligned (s : VectorStore F) q found :
  aligned s -> from_rows s (normalize_L2 q) found ->
  forall i acc,
  exists res,
    collect s i found acc = Some (acc ++ res) /\
    map hit_score res = map fst found /\
    map hit_rank res = map (fun j => i + Z.of_nat j) (seq 1 (length found)) /\
    joined_by_position normalize_L2 inner_product s q res.
Proof.
  intros [Ht Hm] Hfound.
  induction Hfound as [| [sc idx] found (n & row & Hidx & Hrow & Hsc) Hrest IH];
    intros i acc.
  - exists []. simpl. rewrite app_nil_r. repeat split. constructor.
  - simpl in Hidx, Hsc. subst idx.
    assert (Hn : (n < length (rows s))%nat) by (apply nth_error_Some; congruence).
    destruct (nth_error (texts s) n) as [t |] eqn:Htn;
      [| apply nth_error_None in Htn; lia].
    destruct (nth_error (metadatas s) n) as [m |] eqn:Hmn;
      [| apply nth_error_None in Hmn; lia].
    assert (Hit : Py.index (texts s) (Z.of_nat n) = Some t).
    { apply index_nth_error; [lia |]. rewrite Nat2Z.id. exact Htn. }
    assert (Him : Py.index (metadatas s) (Z.of_nat n) = Some m).
    { apply index_nth_error; [lia |]. rewrite Nat2Z.id. exact Hmn. }
    destruct (IH (i + 1) (acc ++ [mkHit t m sc (i + 1)]))
      as (res & Hres & Hscores & Hranks & Hjoin).
    exists (mkHit t m sc (i + 1) :: res).
    cbn [collect].
    destruct (Z.ltb_spec (Z.of_nat n) (len (texts s))) as [_ | Hge];
      [| unfold len in Hge; lia].
    rewrite Hit, Him, Hres, <- app_assoc.
    cbn [app map hit_score hit_rank fst length].
    split; [reflexivity |]. split; [rewrite Hscores; reflexivity |]. split.
    + rewrite Hranks. cbn [seq map]. apply (f_equal2 cons); [lia |].
      rewrite <- (seq_shift (length found) 1), map_map.
      apply map_ext. intros j. lia.
    + constructor; [| exact Hjoin].
      exists n, row. simpl. auto.
Qed.

End WithFloats.

(** Of equal scores the earlier position comes first. *)
Example equal_scores_keep_their_order :
  Store.sort_desc Z.leb [(0, 0); (0, 1); (1, 2); (0, 3)]
  = [(1, 2); (0, 0); (0, 1); (0, 3)].
Proof. reflexivity. Qed.

End StoreFacts.

(** ** Claims about the store *)

Module StoreClaims.
Import Py Store PyFacts StoreFacts.

Section WithFloats.

Context {F : Type}.
Variable normalize_L2 : list F -> list F.
Variable inner_product : list F -> list F -> F.
Variable fle : F -> F -> bool.
Variable padding_score : F.

Local Abbreviation add_documents := (Store.add_documents normalize_L2).
Local Abbreviation similarity_search :=
  (Store.similarity_search normalize_L2 inner_product fle padding_score).
Local Abbreviation step := (Store.step normalize_L2).
Local Abbreviation run := (Store.run normalize_L2).
Local Abbreviation committed := (Store.committed normalize_L2).
Local Abbreviation position_integrity := (Store.position_integrity normalize_L2).

Lemma run_cons (w : World F) o ops : run w (o :: ops) = run (step w o) ops.
Proof. reflexivity. Qed.

(** One operation on an aligned store. *)
Lemma step_keeps_positions (w : World F) o :
  aligned (self w) -> equal_lengths o ->
  aligned (self (step w o)) /\
  match o with
  | Clear => rows (self (step w o)) = [] /\ texts (self (step w o)) = []
             /\ metadatas (self (step w o)) = []
  | Add _ ts es ms =>
      (ts = [] \/ ~ accepted (self w) es -> self (step w o) = self w) /\
      (ts <> [] -> accepted (self w) es ->
       (length (rows (self (step w o))) = length (rows (self w)) + length es)%nat /\
       (forall n, (n < length (rows (self w)))%nat ->
          entry (self (step w o)) n = entry (self w) n) /\
       (forall i, (i < length es)%nat ->
          entry (self (step w o)) (length (rows (self w)) + i) =
          (option_map normalize_L2 (nth_error es i), nth_error ts i,
           nth_error ms i)))
  end.
Proof.
  intros Hal Hlen. destruct o as [fault ts es ms |]; simpl.
  - destruct Hlen as [Hts Hms].
    destruct (add_documents_spec normalize_L2 fault w ts es ms)
      as [[-> Hempty] | [(-> & Hts' & Hes' & Hbad)
                        | (width & Hts' & Hes' & Hnp & Hd & ->)]]; simpl.
    + split; [exact Hal |]. split; [reflexivity |].
      intros Hne _. exfalso. apply Hne.
      destruct Hempty as [-> | ->]; [reflexivity |].
      apply length_zero_iff_nil. exact Hts.
    + split; [exact Hal |]. split; [reflexivity |].
      intros _ (width & Hnp & Hd). exfalso.
      destruct Hbad as [Hnone | (width' & ix & Hnp' & Hix & Hne)];
        [congruence |].
      apply Hne. rewrite (Hd ix Hix). congruence.
    + rewrite self_save_index. simpl.
      destruct (appended_positions normalize_L2 (self w)
                  (committed (self w) width ts es ms) ts es ms)
        as (Hal' & Hlen' & Hold & Hnew); auto.
      { apply committed_appended. exact Hal. }
      split; [exact Hal' |]. split; [| auto].
      intros [Hnil | Hno]; [contradiction |].
      exfalso. apply Hno. exists width. auto.
  - unfold aligned, rows. simpl. auto.
Qed.

(** C1, amended.  From a store whose three sequences are aligned, and
    through any sequence of [add_documents] and [clear] in which every add
    supplies equally many texts, embeddings and metadatas, the store stays
    aligned.  An add with texts and with embeddings that are a matrix of
    a width the index accepts (its dimension; any width while it is not
    initialised) puts the i-th supplied vector, text and metadata at the
    same new position and moves no older entry; an add with nothing to
    add, and one that raises on ragged rows or on another dimension, leave
    the object as it is; a clear empties the three sequences. *)
Theorem C1_position_integrity (w0 : World F) (ops : list (op F)) :
  aligned (self w0) -> Forall equal_lengths ops ->
  position_integrity (run w0 ops).
Proof.
  intros Hal Hops. revert w0 Hal.
  induction Hops as [| o ops Ho Hops IH]; intros w0 Hal.
  - split; [exact Hal |]. intros o Ho. cbv zeta.
    apply step_keeps_positions; assumption.
  - rewrite run_cons. apply IH.
    apply step_keeps_positions; assumption.
Qed.

(** C2, amended.  [add_documents] compares no lengths: whenever the texts
    and the embeddings are not empty and the embeddings are a matrix of a
    width the index accepts, the call returns normally and appends every
    vector, every text and every metadata it was given. *)
Theorem C2_lengths_are_not_compared fault (w : World F) ts es ms :
  ts <> [] -> es <> [] -> accepted (self w) es ->
  exists w',
    add_documents fault w ts es ms = (Returned, w') /\
    rows (self w') = rows (self w) ++ map normalize_L2 es /\
    texts (self w') = texts (kept (self w)) ++ ts /\
    metadatas (self w') = metadatas (kept (self w)) ++ ms.
Proof.
  intros Hts Hes Hacc.
  destruct (add_documents_accepted normalize_L2 fault w ts es ms Hts Hes Hacc)
    as (width & _ & Hadd).
  eexists. split; [exact Hadd |].
  rewrite self_save_index. simpl. auto.
Qed.

(** C4, amended.  When the save fails the error is printed by
    [_save_index] and goes no further: [add_documents] returns normally,
    the new vectors, texts and metadatas are in the object, and the
    metadata artifact is as it was before the call, or truncated. *)
Theorem C4_failed_save_is_not_raised fault (w : World F) ts es ms :
  fault <> NoFault -> ts <> [] -> es <> [] -> accepted (self w) es ->
  exists w',
    add_documents fault w ts es ms = (Returned, w') /\
    rows (self w') = rows (self w) ++ map normalize_L2 es /\
    texts (self w') = texts (kept (self w)) ++ ts /\
    metadatas (self w') = metadatas (kept (self w)) ++ ms /\
    stdout w' = stdout w ++ [ErrorSavingIndex] /\
    (metadata_file (disk w') = metadata_file (disk w) \/
     metadata_file (disk w') = Unreadable).
Proof.
  intros Hf Hts Hes Hacc.
  destruct (add_documents_accepted normalize_L2 fault w ts es ms Hts Hes Hacc)
    as (width & _ & Hadd).
  eexists. split; [exact Hadd |].
  rewrite self_save_index. simpl.
  repeat (split; [reflexivity |]).
  eapply (save_index_fault fault
            (mkWorld (committed (self w) width ts es ms) (disk w) (stdout w)));
    [reflexivity | exact Hf].
Qed.

(** An add on an initialised index keeps the dimension, whatever it is
    given. *)
Lemma add_keeps_dimension fault (w : World F) ts es ms ix :
  index (self w) = Some ix ->
  dimension (self (snd (add_documents fault w ts es ms))) = dimension (self w) /\
  exists ix', index (self (snd (add_documents fault w ts es ms))) = Some ix'
              /\ d ix' = d ix.
Proof.
  intros Hix.
  destruct (add_documents_spec normalize_L2 fault w ts es ms)
    as [[-> _] | [[-> _] | (width & _ & _ & _ & Hd & ->)]]; simpl; eauto.
  rewrite self_save_index. simpl. rewrite Hix.
  split; [reflexivity |]. eexists. split; [reflexivity |]. simpl.
  symmetry. apply Hd. exact Hix.
Qed.

Lemma run_keeps_dimension (w : World F) ops ix :
  index (self w) = Some ix -> Forall (fun o => o <> Clear) ops ->
  dimension (self (run w ops)) = dimension (self w) /\
  exists ix', index (self (run w ops)) = Some ix' /\ d ix' = d ix.
Proof.
  intros Hix Hops. revert w ix Hix.
  induction Hops as [| o ops Ho Hops IH]; intros w ix Hix.
  - simpl. eauto.
  - rewrite run_cons. destruct o as [fault ts es ms |]; [| congruence].
    destruct (add_keeps_dimension fault w ts es ms ix Hix) as (Hdim & ix' & Hix' & Hd).
    simpl. destruct (IH _ _ Hix') as (Hdim2 & ix2 & Hix2 & Hd2).
    split; [congruence |]. exists ix2. split; [exact Hix2 | congruence].
Qed.

(** C5, amended.  The first add on an uninitialised index sets the
    dimension to the width of its vectors; no later sequence of adds
    changes it, and an add of another width raises an error and leaves
    everything as it was.  (A clear uninitialises the index, and the next
    add sets the dimension anew.) *)
Theorem C5_dimension_is_fixed_until_clear fault (w : World F) ts es ms width ops :
  index (self w) = None -> ts <> [] -> es <> [] -> np_array es = Some width ->
  Forall (fun o => o <> Clear) ops ->
  let first := add_documents fault w ts es ms in
  let later := run (snd first) ops in
  fst first = Returned /\
  dimension (self (snd first)) = width /\
  dimension (self later) = width /\
  (exists ix, index (self later) = Some ix /\ d ix = width) /\
  (forall fault' ts' es' ms' width',
     ts' <> [] -> es' <> [] -> np_array es' = Some width' -> width' <> width ->
     add_documents fault' later ts' es' ms' = (Raised add_error, later)).
Proof.
  intros Hix Hts Hes Hnp Hops. cbv zeta.
  destruct (add_documents_spec normalize_L2 fault w ts es ms)
    as [[_ [? | ?]] | [(_ & _ & _ & Hbad) | (width' & _ & _ & Hnp' & _ & Hadd)]];
    try contradiction.
  { destruct Hbad as [Hnone | (w1 & ix & _ & Hix' & _)]; congruence. }
  assert (width' = width) as -> by congruence.
  rewrite Hadd. simpl fst. simpl snd.
  set (w1 := _save_index fault _).
  assert (Hself : self w1 = committed (self w) width ts es ms)
    by apply self_save_index.
  assert (Hdim1 : dimension (self w1) = width)
    by (rewrite Hself; simpl; rewrite Hix; reflexivity).
  assert (Hix1 : index (self w1)
                 = Some (mkIndex width (rows (self w) ++ map normalize_L2 es)))
    by (rewrite Hself; reflexivity).
  destruct (run_keeps_dimension w1 ops _ Hix1 Hops) as (Hdim2 & ix2 & Hix2 & Hd2).
  simpl in Hd2.
  split; [reflexivity |]. split; [exact Hdim1 |]. split; [congruence |].
  split; [eauto |].
  intros fault' ts' es' ms' width2 Hts' Hes' Hnp2 Hne.
  destruct (add_documents_spec normalize_L2 fault' (run w1 ops) ts' es' ms')
    as [[_ [? | ?]] | [(Hadd' & _) | (width3 & _ & _ & Hnp3 & Hd3 & _)]];
    try contradiction.
  - exact Hadd'.
  - exfalso. apply Hne. rewrite <- Hd2, (Hd3 _ Hix2). congruence.
Qed.

(** C10, amended.  A metadata artifact with texts and no index artifact:
    the store starts with the texts and the metadatas of the artifact and
    no index, and its statistics count the texts but no vector and no
    dimension.  An add with no texts or no embeddings returns and leaves
    the loaded entries; an add whose embeddings are ragged raises and
    leaves them; every other add goes through, and the store then holds
    only what that add supplied. *)
Theorem C10_metadata_without_index (dim : Z) (data : snapshot) :
  snap_texts data <> [] ->
  let w := __init__ (F := F) dim (mkDisk Absent (Holds data)) in
  index (self w) = None /\
  texts (self w) = snap_texts data /\ texts (self w) <> [] /\
  metadatas (self w) = snap_metadatas data /\
  0 < total_documents (get_stats w) /\
  index_size (get_stats w) = 0 /\
  vector_dimensions (get_stats w) = 0 /\
  (forall fault ts es ms,
     ts = [] \/ es = [] -> add_documents fault w ts es ms = (Returned, w)) /\
  (forall fault ts es ms,
     ts <> [] -> es <> [] -> np_array es = None ->
     add_documents fault w ts es ms = (Raised add_error, w)) /\
  forall fault ts es ms width,
    ts <> [] -> es <> [] -> np_array es = Some width ->
    exists w',
      add_documents fault w ts es ms = (Returned, w') /\
      texts (self w') = ts /\ metadatas (self w') = ms /\
      rows (self w') = map normalize_L2 es.
Proof.
  intros Hne. cbv zeta.
  unfold __init__, _load_index. cbn.
  repeat (split; [try reflexivity; try exact Hne |]).
  - unfold len. destruct (snap_texts data); [congruence | simpl; lia].
  - intros fault ts es ms [-> | ->]; unfold Store.add_documents;
      [reflexivity | destruct ts; reflexivity].
  - intros fault ts es ms Hts Hes Hnp.
    destruct ts as [| t ts]; [congruence |].
    destruct es as [| e es]; [congruence |].
    unfold Store.add_documents. cbn [truthy negb orb].
    rewrite Hnp. reflexivity.
  - intros fault ts es ms width Hts Hes Hnp.
    destruct ts as [| t ts]; [congruence |].
    destruct es as [| e es]; [congruence |].
    unfold Store.add_documents. cbn [truthy negb orb].
    rewrite Hnp. cbn [self index].
    unfold IndexFlatIP_add. cbn [d xb]. rewrite Z.eqb_refl.
    eexists. split; [reflexivity |].
    rewrite self_save_index. cbn. auto.
Qed.

Lemma in_firstn {A} (x : A) n l : In x (firstn n l) -> In x l.
Proof.
  intros H. rewrite <- (firstn_skipn n l). apply in_or_app. left. exact H.
Qed.

(** C3, amended.  On a store without index or without texts every search
    returns the empty list.  On an aligned store with texts, a query of the
    dimension of the index and [k >= 1] get exactly [min(k, n)] results,
    by non-increasing score, ranked 1, 2, ..., each with the text and
    metadata of the position of its vector; [k <= 0] or a query of another
    dimension get the wrapped error.  The order on scores is total (no
    NaN). *)
Theorem C3_search_is_ranked
    (fle_total : forall a b, fle a b = true \/ fle b a = true)
    (w : World F) (q : list F) (k : Z) :
  (index (self w) = None \/ texts (self w) = [] ->
   similarity_search w q k = Returns []) /\
  (aligned (self w) -> texts (self w) <> [] ->
   (forall ix, index (self w) = Some ix -> len q = d ix) -> 1 <= k ->
   exists hits,
     similarity_search w q k = Returns hits /\
     len hits = Z.min k (len (texts (self w))) /\
     ranks_from_one hits /\
     scores_do_not_increase fle hits /\
     joined_by_position normalize_L2 inner_product (self w) q hits) /\
  (forall ix, index (self w) = Some ix -> texts (self w) <> [] ->
   k <= 0 \/ len q <> d ix ->
   similarity_search w q k = Raises search_error).
Proof.
  unfold Store.similarity_search. split; [| split].
  - intros [Hnone | Hempty].
    + rewrite Hnone. reflexivity.
    + destruct (index (self w)); [| reflexivity].
      rewrite Hempty. reflexivity.
  - intros Hal Hne Hdim Hk.
    pose proof Hal as [Ht Hm].
    destruct (index (self w)) as [ix |] eqn:Hix.
    2:{ unfold rows in Ht. rewrite Hix in Ht. simpl in Ht.
        apply length_zero_iff_nil in Ht. contradiction. }
    assert (Hrows : rows (self w) = xb ix) by (unfold rows; rewrite Hix; reflexivity).
    rewrite Hrows in Ht, Hm.
    assert (Hpos : 1 <= len (texts (self w))).
    { unfold len. destruct (texts (self w)); [congruence | simpl; lia]. }
    destruct (Z.eqb_spec (len (texts (self w))) 0) as [Hz | _]; [lia |].
    unfold IndexFlatIP_search.
    rewrite (Hdim ix eq_refl), Z.eqb_refl.
    set (k' := Z.min k (len (texts (self w)))).
    destruct (Z.ltb_spec 0 k') as [_ | Hbad]; [| subst k'; lia].
    cbn [andb].
    set (sorted := Store.sort_desc fle
                     (Store.scored inner_product (normalize_L2 q) (xb ix) 0)).
    assert (Hlen : length sorted = length (xb ix))
      by (subst sorted; rewrite length_sort_desc, length_scored; reflexivity).
    assert (Hbest : length (firstn (Z.to_nat k') sorted) = Z.to_nat k').
    { rewrite length_firstn, Hlen, <- Ht. subst k'. unfold len. lia. }
    rewrite Hbest, Nat.sub_diag. cbn [repeat]. rewrite app_nil_r.
    destruct (collect_aligned normalize_L2 inner_product (self w) q
                (firstn (Z.to_nat k') sorted)) with (i := 0) (acc := @nil (hit F))
      as (hits & Hcollect & Hscores & Hranks & Hjoin).
    + exact Hal.
    + apply Forall_forall. intros [sc idx] Hin.
      apply in_firstn in Hin. subst sorted. apply in_sort_desc in Hin.
      destruct (in_scored _ _ _ _ _ _ Hin) as (n & row & -> & Hn & ->).
      exists n, row. rewrite Hrows. simpl. auto.
    + rewrite Hcollect. simpl. exists hits. split; [reflexivity |].
      assert (Hcount : length hits = Z.to_nat k').
      { rewrite <- (length_map hit_score), Hscores, length_map. exact Hbest. }
      split; [unfold len in *; subst k'; lia |]. split; [| split].
      * unfold ranks_from_one. rewrite Hranks, Hbest, Hcount.
        apply map_ext. intros j. lia.
      * unfold scores_do_not_increase. rewrite Hscores.
        apply (sorted_scores fle), sorted_firstn.
        subst sorted. apply sorted_sort_desc. exact fle_total.
      * exact Hjoin.
  - intros ix Hix Hne Hbad. rewrite Hix.
    assert (Hpos : 1 <= len (texts (self w))).
    { unfold len. destruct (texts (self w)); [congruence | simpl; lia]. }
    destruct (Z.eqb_spec (len (texts (self w))) 0) as [Hz | _]; [lia |].
    unfold IndexFlatIP_search.
    destruct (Z.eqb_spec (len q) (d ix)) as [Hd | Hd];
      destruct (Z.ltb_spec 0 (Z.min k (len (texts (self w))))) as [Hk | Hk];
      cbn [andb]; try reflexivity.
    destruct Hbad; [lia | contradiction].
Qed.

End WithFloats.

(** *** The examples, on integer vectors *)

Import Sample.

(** The order of the integers is total. *)
Lemma leb_total (a b : Z) : (a <=? b) = true \/ (b <=? a) = true.
Proof.
  destruct (Z.leb_spec a b); [left; reflexivity | right].
  apply Z.leb_le. lia.
Defined.

(** C1, as stated, fails: the object that the constructor builds need not
    be aligned, and equal-length adds do not align it.  After an add whose
    metadata file cannot be opened, the index artifact holds three vectors
    and the metadata artifact two texts; a store constructed on them holds
    three vectors and two texts, an add of one text, one embedding and one
    metadata leaves four and three, and the new text sits at the position
    of an older vector.  A store constructed on a metadata artifact alone
    holds two texts and no vector, and an add of nothing leaves it so. *)
Lemma C1_constructed_store_is_not_aligned :
  let saved :=
    snd (add OpenMetadataFails two_docs [str "owl"] [[0; 0; 1]] [meta "c"]) in
  let w := __init__ 1536 (disk saved) in
  let w' := run keep w [Add NoFault [str "emu"] [[1; 0; 0]] [meta "d"]] in
  let v := __init__ 1536 (mkDisk Absent (metadata_file (disk two_docs))) in
  let v' := run keep v [Add NoFault [] [] []] in
  (length (rows (self w)) = 3 /\ length (texts (self w)) = 2 /\
   length (metadatas (self w)) = 2)%nat /\
  (length (rows (self w')) = 4 /\ length (texts (self w')) = 3 /\
   length (metadatas (self w')) = 3)%nat /\
  entry (self w') 2 = (Some [0; 0; 1], Some (str "emu"), Some (meta "d")) /\
  entry (self w') 3 = (Some [1; 0; 0], None, None) /\
  (length (rows (self v')) = 0 /\ length (texts (self v')) = 2 /\
   length (metadatas (self v')) = 2)%nat.
Proof. repeat split; reflexivity. Qed.

(** The theorem of C1 on a new store: an add, a clear, and an add whose
    save fails. *)
Lemma C1_position_integrity_witness :
  position_integrity keep
    (run keep fresh
       [Add NoFault [str "cat"; str "dog"] [[1; 0; 0]; [0; 1; 0]] [meta "a"; meta "b"];
        Clear;
        Add DumpMetadataFails [str "owl"] [[0; 1]] [meta "c"]]).
Proof.
  apply (C1_position_integrity keep fresh).
  - split; reflexivity.
  - repeat constructor.
Defined.

(** C2, as stated, fails: two texts with one embedding and no metadata are
    accepted; the call returns and leaves two texts, one vector and no
    metadata in the store. *)
Lemma C2_unequal_lengths_are_accepted :
  exists w',
    add NoFault fresh [str "cat"; str "dog"] [[1; 0; 0]] [] = (Returned, w') /\
    texts (self w') = [str "cat"; str "dog"] /\
    rows (self w') = [[1; 0; 0]] /\
    metadatas (self w') = [] /\
    index (self fresh) = None.
Proof. eexists. repeat split; reflexivity. Qed.

(** The theorem of C2 on the same call. *)
Lemma C2_lengths_are_not_compared_witness :
  exists w',
    add NoFault fresh [str "cat"; str "dog"] [[1; 0; 0]] [] = (Returned, w') /\
    rows (self w') = rows (self fresh) ++ map keep [[1; 0; 0]] /\
    texts (self w') = texts (kept (self fresh)) ++ [str "cat"; str "dog"] /\
    metadatas (self w') = metadatas (kept (self fresh)) ++ [].
Proof.
  apply (C2_lengths_are_not_compared keep NoFault fresh).
  - discriminate.
  - discriminate.
  - exists 3. split; [reflexivity |]. intros ix H. discriminate H.
Defined.

(** C3, as stated, fails for [k = 0] and for a query of another dimension:
    [min(0, 2) = 0] results are asked of a store with two entries, and the
    call raises; so does a query of two numbers against vectors of three. *)
Lemma C3_search_raises :
  aligned (self two_docs) /\
  search two_docs [1; 0; 0] 0 = Raises search_error /\
  Z.min 0 (len (texts (self two_docs))) = 0 /\
  search two_docs [1; 0; 0] (-1) = Raises search_error /\
  search two_docs [1; 0] 1 = Raises search_error.
Proof. repeat split; reflexivity. Qed.

(** The theorem of C3 on an empty store and on one with two entries. *)
Lemma C3_search_is_ranked_witness :
  search fresh [1; 0; 0] 5 = Returns [] /\
  exists hits,
    search two_docs [0; 1; 0] 5 = Returns hits /\
    len hits = Z.min 5 (len (texts (self two_docs))) /\
    ranks_from_one hits /\
    scores_do_not_increase Z.leb hits /\
    joined_by_position keep dot_product (self two_docs) [0; 1; 0] hits.
Proof.
  split.
  - apply (C3_search_is_ranked keep dot_product Z.leb lowest leb_total
             fresh [1; 0; 0] 5).
    left. reflexivity.
  - apply (C3_search_is_ranked keep dot_product Z.leb lowest leb_total
             two_docs [0; 1; 0] 5).
    + split; reflexivity.
    + discriminate.
    + intros ix H. injection H as <-. reflexivity.
    + lia.
Defined.

(** C4, as stated, fails: [pickle.dump] fails, the call still returns, the
    text is in the object, the metadata artifact is unreadable, and a store
    constructed from that directory is empty. *)
Lemma C4_failed_save_returns_normally :
  exists w',
    add DumpMetadataFails fresh [str "cat"] [[1; 0; 0]] [meta "a"] = (Returned, w') /\
    texts (self w') = [str "cat"] /\
    rows (self w') = [[1; 0; 0]] /\
    stdout w' = [ErrorSavingIndex] /\
    metadata_file (disk w') = Unreadable /\
    texts (self (__init__ 1536 (disk w'))) = [].
Proof. eexists. repeat split; reflexivity. Qed.

(** The theorem of C4 when the metadata artifact cannot be opened. *)
Lemma C4_failed_save_is_not_raised_witness :
  exists w',
    add OpenMetadataFails two_docs [str "owl"] [[0; 0; 1]] [meta "c"] = (Returned, w') /\
    rows (self w') = rows (self two_docs) ++ map keep [[0; 0; 1]] /\
    texts (self w') = texts (kept (self two_docs)) ++ [str "owl"] /\
    metadatas (self w') = metadatas (kept (self two_docs)) ++ [meta "c"] /\
    stdout w' = stdout two_docs ++ [ErrorSavingIndex] /\
    (metadata_file (disk w') = metadata_file (disk two_docs) \/
     metadata_file (disk w') = Unreadable).
Proof.
  apply (C4_failed_save_is_not_raised keep OpenMetadataFails two_docs).
  - discriminate.
  - discriminate.
  - discriminate.
  - exists 3. split; [reflexivity |].
    intros ix H. injection H as <-. reflexivity.
Defined.

(** C5, as stated, fails: after a clear the next add fixes another
    dimension, and no error is raised. *)
Lemma C5_dimension_changes_after_clear :
  dimension (self two_docs) = 3 /\
  exists w',
    add NoFault (clear two_docs) [str "owl"] [[0; 1]] [meta "c"] = (Returned, w') /\
    dimension (self w') = 2.
Proof. split; [reflexivity |]. eexists. split; reflexivity. Qed.

(** The theorem of C5 on a new store and two adds of width three. *)
Lemma C5_dimension_is_fixed_until_clear_witness :
  let first := add NoFault fresh [str "cat"] [[1; 0; 0]] [meta "a"] in
  let later := run keep (snd first) [Add NoFault [str "dog"] [[0; 1; 0]] [meta "b"]] in
  fst first = Returned /\
  dimension (self (snd first)) = 3 /\
  dimension (self later) = 3 /\
  (exists ix, index (self later) = Some ix /\ d ix = 3) /\
  (forall fault' ts' es' ms' width',
     ts' <> [] -> es' <> [] -> np_array es' = Some width' -> width' <> 3 ->
     add_documents keep fault' later ts' es' ms' = (Raised add_error, later)).
Proof.
  apply (C5_dimension_is_fixed_until_clear keep NoFault fresh
           [str "cat"] [[1; 0; 0]] [meta "a"] 3
           [Add NoFault [str "dog"] [[0; 1; 0]] [meta "b"]]).
  - reflexivity.
  - discriminate.
  - discriminate.
  - reflexivity.
  - repeat constructor. discriminate.
Defined.

(** C10, as stated, fails twice.  The loaded metadatas can be empty: an
    add of two texts with one embedding and no metadata writes such an
    artifact.  And not every first add resets the store: one with nothing
    to add returns before the reset, and one with ragged embeddings raises
    before it; both leave the loaded texts. *)
Lemma C10_loaded_entries_can_stay :
  let written := snd (add NoFault fresh [str "cat"; str "dog"] [[1; 0; 0]] []) in
  let data := mkSnapshot [str "cat"; str "dog"] [] 3 in
  let w := __init__ (F := Z) 1536 (mkDisk Absent (Holds data)) in
  metadata_file (disk written) = Holds data /\
  index (self w) = None /\
  texts (self w) = [str "cat"; str "dog"] /\
  metadatas (self w) = [] /\
  add NoFault w [] [] [] = (Returned, w) /\
  add NoFault w [str "owl"] [[1; 0]; [1]] [meta "c"] = (Raised add_error, w) /\
  texts (self (snd (add NoFault w [str "owl"] [[1; 0]; [1]] [meta "c"])))
    = [str "cat"; str "dog"].
Proof. repeat split; reflexivity. Qed.

(** The theorem of C10 on a snapshot of two texts without its index. *)
Lemma C10_metadata_without_index_witness :
  let data := mkSnapshot [str "cat"; str "dog"] [meta "a"; meta "b"] 3 in
  let w := __init__ (F := Z) 768 (mkDisk Absent (Holds data)) in
  index (self w) = None /\
  texts (self w) = snap_texts data /\ texts (self w) <> [] /\
  metadatas (self w) = snap_metadatas data /\
  0 < total_documents (get_stats w) /\
  index_size (get_stats w) = 0 /\
  vector_dimensions (get_stats w) = 0 /\
  (forall fault ts es ms,
     ts = [] \/ es = [] -> add_documents keep fault w ts es ms = (Returned, w)) /\
  (forall fault ts es ms,
     ts <> [] -> es <> [] -> np_array es = None ->
     add_documents keep fault w ts es ms = (Raised add_error, w)) /\
  forall fault ts es ms width,
    ts <> [] -> es <> [] -> np_array es = Some width ->
    exists w',
      add_documents keep fault w ts es ms = (Returned, w') /\
      texts (self w') = ts /\ metadatas (self w') = ms /\
      rows (self w') = map keep es.
Proof.
  apply (C10_metadata_without_index keep 768
           (mkSnapshot [str "cat"; str "dog"] [meta "a"; meta "b"] 3)).
  discriminate.
Defined.

End StoreClaims.

(** ** More about the store *)

Module StoreExtras.
Import Py Store PyFacts StoreFacts.

Section WithFloats.

Context {F : Type}.
Variable normalize_L2 : list F -> list F.
Variable inner_product : list F -> list F -> F.
Variable fle : F -> F -> bool.
Variable padding_score : F.

Local Abbreviation add_documents := (Store.add_documents normalize_L2).
Local Abbreviation similarity_search :=
  (Store.similarity_search normalize_L2 inner_product fle padding_score).
Local Abbreviation committed := (Store.committed normalize_L2).

(** X1.  A call of [add_documents] that raises has changed nothing: the
    object, the two artifacts and the output are as before.  It raises only
    for rows of unequal length or for a width that is not the dimension of
    the index. *)
Theorem add_documents_raises_unchanged fault (w w' : World F) ts es ms msg :
  add_documents fault w ts es ms = (Raised msg, w') ->
  w' = w /\ msg = add_error /\ ts <> [] /\ es <> [] /\
  (np_array es = None \/
   exists width ix,
     np_array es = Some width /\ index (self w) = Some ix /\ d ix <> width).
Proof.
  intros Hadd.
  destruct (add_documents_spec normalize_L2 fault w ts es ms)
    as [[H _] | [(H & Hts & Hes & Hwhy) | (width & _ & _ & _ & _ & H)]];
    rewrite H in Hadd; inversion Hadd; subst; auto.
Qed.

(** X2.  The snapshot of an add that was saved is the store: a new object
    constructed from the two artifacts, with whatever default dimension, has
    the same fields, reports the same statistics and answers every search
    alike. *)
Theorem snapshot_round_trip (w : World F) ts es ms dim q k :
  ts <> [] -> es <> [] -> accepted (self w) es ->
  let saved := snd (add_documents NoFault w ts es ms) in
  let loaded := __init__ dim (disk saved) in
  self loaded = self saved /\
  stdout loaded = [] /\
  get_stats loaded = get_stats saved /\
  total_documents (get_stats loaded) = len (texts (kept (self w))) + len ts /\
  similarity_search loaded q k = similarity_search saved q k.
Proof.
  intros Hts Hes Hacc. cbv zeta.
  pose proof (reload_after_add normalize_L2 w ts es ms dim Hts Hes Hacc) as Hself.
  cbv zeta in Hself.
  destruct (add_documents_accepted normalize_L2 NoFault w ts es ms Hts Hes Hacc)
    as (width & _ & Hadd).
  rewrite Hadd in *. cbn [snd] in *.
  split; [exact Hself |]. split.
  - erewrite save_index_ok by reflexivity.
    unfold Store.committed, __init__, _load_index.
    cbn [self disk metadata_file index_file texts metadatas dimension index
         snap_texts snap_metadatas snap_dimension exists_ andb stdout].
    destruct (truthy (texts (kept (self w)) ++ ts)); reflexivity.
  - unfold get_stats, Store.similarity_search. rewrite Hself.
    split; [reflexivity |]. split; [| reflexivity].
    rewrite self_save_index. cbn. unfold len. rewrite length_app. lia.
Qed.

(** X3.  After [clear] the statistics are all zero, both artifacts are
    gone, every search returns the empty list, a second [clear] changes
    nothing, and a new object constructed in that directory is empty. *)
Theorem clear_empties_everything (w : World F) dim q k :
  get_stats (clear w) = mkStats 0 0 0 /\
  disk (clear w) = mkDisk Absent Absent /\
  similarity_search (clear w) q k = Returns [] /\
  clear (clear w) = clear w /\
  self (__init__ dim (disk (clear w))) = mkStore dim None [] [].
Proof. repeat split; reflexivity. Qed.

(** X4.  Construction reads and never writes.  An index is loaded only
    together with texts: if the new object has an index, its texts are not
    empty and both artifacts were read.  An unreadable metadata artifact
    gives the empty store of the requested dimension and one printed
    error; without a metadata artifact the index artifact is not looked
    at. *)
Theorem load_index_guards (dim : Z) (dk : Disk F) :
  let w := __init__ dim dk in
  disk w = dk /\
  (forall ix, index (self w) = Some ix ->
     texts (self w) <> [] /\ index_file dk = Holds ix /\
     exists data, metadata_file dk = Holds data /\
       texts (self w) = snap_texts data /\
       metadatas (self w) = snap_metadatas data /\
       dimension (self w) = snap_dimension data) /\
  (metadata_file dk = Unreadable ->
     self w = mkStore dim None [] [] /\ stdout w = [ErrorLoadingIndex]) /\
  (metadata_file dk = Absent ->
     self w = mkStore dim None [] [] /\ stdout w = []).
Proof.
  cbv zeta. unfold __init__, _load_index. destruct dk as [ixf mf].
  cbn [metadata_file index_file].
  destruct mf as [| | data]; cbn [texts truthy andb dimension index metadatas].
  - rewrite andb_false_r. cbn.
    repeat split; try discriminate.
  - cbn. repeat split; try discriminate.
  - destruct ixf as [| | ix0]; cbn [exists_ andb];
      destruct (snap_texts data) as [| t ts] eqn:Htexts; cbn;
      repeat split; try discriminate;
      match goal with
      | H : Some _ = Some _ |- _ => inversion H; subst
      end;
      first [reflexivity | exists data; rewrite Htexts; auto].
Qed.

(** *** Search on any store *)

Lemma hdrel_above (a : Z) (l : list Z) :
  Forall (fun x => a < x) l -> HdRel Z.lt a l.
Proof. intros H. destruct H; constructor. assumption. Qed.

(** The loop of lines 52-59 adds at most one result per entry found, with
    increasing ranks. *)
Lemma collect_bound (s : VectorStore F) found :
  forall i acc res,
    collect s i found acc = Some res ->
    exists new,
      res = acc ++ new /\
      (length new <= length found)%nat /\
      Forall (fun h => i + 1 <= hit_rank h <= i + Z.of_nat (length found)) new /\
      Sorted Z.lt (map hit_rank new).
Proof.
  induction found as [| [score idx] found IH]; intros i acc res Hres.
  - simpl in Hres. injection Hres as <-. exists []. rewrite app_nil_r.
    repeat split; auto; constructor.
  - cbn [collect] in Hres.
    destruct (idx <? len (texts s)).
    + destruct (Py.index (texts s) idx) as [t |]; [| discriminate].
      destruct (Py.index (metadatas s) idx) as [m |]; [| discriminate].
      destruct (IH _ _ _ Hres) as (new & -> & Hlen & Hranks & Hsorted).
      exists (mkHit t m score (i + 1) :: new).
      rewrite <- app_assoc. split; [reflexivity |].
      split; [simpl; lia |]. split.
      * constructor; [simpl; lia |].
        eapply Forall_impl; [| exact Hranks]. simpl. intros h Hh. lia.
      * simpl. constructor; [exact Hsorted |].
        apply hdrel_above. apply Forall_map.
        eapply Forall_impl; [| exact Hranks]. simpl. intros h Hh. lia.
    + destruct (IH _ _ _ Hres) as (new & -> & Hlen & Hranks & Hsorted).
      exists new. split; [reflexivity |]. split; [simpl; lia |].
      split; [| exact Hsorted].
      eapply Forall_impl; [| exact Hranks]. simpl. intros h Hh. lia.
Qed.

(** faiss answers with exactly [k] entries. *)
Lemma length_search_found (ix : IndexFlatIP F) width q k found :
  IndexFlatIP_search inner_product fle padding_score ix width q k = Some found ->
  0 < k /\ length found = Z.to_nat k.
Proof.
  unfold IndexFlatIP_search.
  destruct (width =? d ix); [| discriminate].
  destruct (Z.ltb_spec 0 k) as [Hk | Hk]; [| discriminate].
  cbn [andb]. intros [= <-]. split; [exact Hk |].
  rewrite length_app, repeat_length.
  pose proof (firstn_le_length (Z.to_nat k)
                (Store.sort_desc fle
                   (Store.scored inner_product q (xb ix) 0))).
  rewrite length_firstn in *. lia.
Qed.

(** X5.  Whatever state the store is in, a search that returns gives at
    most [min(k, len(texts))] results, with ranks between 1 and that
    number, strictly increasing. *)
Theorem search_returns_at_most_k (w : World F) q k hits :
  similarity_search w q k = Returns hits ->
  len hits <= Z.max 0 (Z.min k (len (texts (self w)))) /\
  Forall (fun h => 1 <= hit_rank h <= Z.min k (len (texts (self w)))) hits /\
  Sorted Z.lt (map hit_rank hits).
Proof.
  unfold Store.similarity_search.
  destruct (index (self w)) as [ix |].
  2:{ intros [= <-]. unfold len. simpl. repeat split; try lia; constructor. }
  destruct (len (texts (self w)) =? 0).
  { intros [= <-]. unfold len. simpl. repeat split; try lia; constructor. }
  destruct (IndexFlatIP_search _ _ _ _ _ _ _) as [found |] eqn:Hfound;
    [| discriminate].
  apply length_search_found in Hfound. destruct Hfound as [Hk Hlen].
  destruct (collect (self w) 0 found []) as [res |] eqn:Hres; [| discriminate].
  intros [= <-].
  destruct (collect_bound _ _ _ _ _ Hres) as (new & -> & Hnew & Hranks & Hsorted).
  simpl. split; [unfold len in *; lia |]. split; [| exact Hsorted].
  eapply Forall_impl; [| exact Hranks]. simpl. intros h Hh. lia.
Qed.

(** *** The best entries *)

Local Abbreviation desc := (Store.desc fle).

Lemma permutation_insert_desc e l :
  Permutation (Store.insert_desc fle e l) (e :: l).
Proof.
  induction l as [| h l IH]; simpl; [reflexivity |].
  destruct (fle (fst e) (fst h) && negb (fle (fst h) (fst e))); [| reflexivity].
  rewrite IH. apply perm_swap.
Qed.

Lemma permutation_sort_desc l : Permutation (Store.sort_desc fle l) l.
Proof.
  induction l as [| h l IH]; simpl; [reflexivity |].
  unfold Store.sort_desc in *. simpl.
  rewrite permutation_insert_desc, IH. reflexivity.
Qed.

Lemma scores_of_scored q rs pos :
  map fst (Store.scored inner_product q rs pos) = map (inner_product q) rs.
Proof.
  revert pos. induction rs as [| r rs IH]; intros pos; simpl;
    [| rewrite IH]; reflexivity.
Qed.

Lemma strongly_sorted_app {A} (R : A -> A -> Prop) l1 l2 :
  StronglySorted R (l1 ++ l2) ->
  forall a b, In a l1 -> In b l2 -> R a b.
Proof.
  induction l1 as [| x l1 IH]; simpl; intros Hs a b Ha Hb; [contradiction |].
  inversion Hs as [| ? ? Hrest Hall]; subst.
  destruct Ha as [<- | Ha].
  - rewrite Forall_forall in Hall. apply Hall, in_or_app. right. exact Hb.
  - apply IH; assumption.
Qed.

Section Ordered.

Hypothesis fle_total : forall a b, fle a b = true \/ fle b a = true.
Hypothesis fle_trans :
  forall a b c, fle a b = true -> fle b c = true -> fle a c = true.

(** X6.  On an aligned store the results are the best entries: their
    scores, together with those of the entries left out, are the inner
    products of the normalised query with all the vectors of the index, and
    no entry left out scores higher than one returned. *)
Theorem search_returns_the_best (w : World F) q k :
  aligned (self w) -> texts (self w) <> [] ->
  (forall ix, index (self w) = Some ix -> len q = d ix) -> 1 <= k ->
  exists hits rest,
    similarity_search w q k = Returns hits /\
    Permutation (map hit_score hits ++ rest)
                (map (inner_product (normalize_L2 q)) (rows (self w))) /\
    (length rest = length (rows (self w)) - length hits)%nat /\
    forall a b, In a (map hit_score hits) -> In b rest -> fle b a = true.
Proof.
  intros Hal Hne Hdim Hk. unfold Store.similarity_search.
  pose proof Hal as [Ht Hm].
  destruct (index (self w)) as [ix |] eqn:Hix.
  2:{ unfold rows in Ht. rewrite Hix in Ht. simpl in Ht.
      apply length_zero_iff_nil in Ht. contradiction. }
  assert (Hrows : rows (self w) = xb ix) by (unfold rows; rewrite Hix; reflexivity).
  rewrite Hrows in *.
  assert (Hpos : 1 <= len (texts (self w))).
  { unfold len. destruct (texts (self w)); [congruence | simpl; lia]. }
  destruct (Z.eqb_spec (len (texts (self w))) 0) as [Hz | _]; [lia |].
  unfold IndexFlatIP_search.
  rewrite (Hdim ix eq_refl), Z.eqb_refl.
  set (k' := Z.min k (len (texts (self w)))).
  destruct (Z.ltb_spec 0 k') as [_ | Hbad]; [| subst k'; lia].
  cbn [andb].
  set (sorted := Store.sort_desc fle
                   (Store.scored inner_product (normalize_L2 q) (xb ix) 0)).
  assert (Hlen : length sorted = length (xb ix))
    by (subst sorted; rewrite length_sort_desc, length_scored; reflexivity).
  assert (Hbest : length (firstn (Z.to_nat k') sorted) = Z.to_nat k').
  { rewrite length_firstn, Hlen, <- Ht. subst k'. unfold len. lia. }
  rewrite Hbest, Nat.sub_diag. cbn [repeat]. rewrite app_nil_r.
  destruct (collect_aligned normalize_L2 inner_product (self w) q
              (firstn (Z.to_nat k') sorted)) with (i := 0) (acc := @nil (hit F))
    as (hits & Hcollect & Hscores & _ & _).
  { exact Hal. }
  { apply Forall_forall. intros [sc idx] Hin.
    apply StoreClaims.in_firstn in Hin. subst sorted. apply in_sort_desc in Hin.
    destruct (in_scored _ _ _ _ _ _ Hin) as (n & row & -> & Hn & ->).
    exists n, row. rewrite Hrows. simpl. auto. }
  rewrite Hcollect. cbn [app].
  exists hits, (map fst (skipn (Z.to_nat k') sorted)).
  split; [reflexivity |]. rewrite Hscores. split; [| split].
  - rewrite <- map_app, firstn_skipn. subst sorted.
    rewrite <- (scores_of_scored _ _ 0).
    apply Permutation_map, permutation_sort_desc.
  - rewrite length_map, length_skipn, Hlen.
    rewrite <- (length_map hit_score hits), Hscores, length_map, Hbest.
    reflexivity.
  - intros a b Ha Hb.
    apply in_map_iff in Ha. destruct Ha as (x & <- & Hx).
    apply in_map_iff in Hb. destruct Hb as (y & <- & Hy).
    assert (Hss : StronglySorted desc sorted).
    { apply Sorted_StronglySorted.
      - intros u v z Huv Hvz. unfold Store.desc in *. eapply fle_trans; eassumption.
      - subst sorted. apply sorted_sort_desc. exact fle_total. }
    rewrite <- (firstn_skipn (Z.to_nat k') sorted) in Hss.
    exact (strongly_sorted_app _ _ _ Hss x y Hx Hy).
Qed.

End Ordered.

End WithFloats.

(** *** The examples, on integer vectors *)

Import Sample.

(** The order of the integers is transitive. *)
Lemma leb_trans (a b c : Z) :
  (a <=? b) = true -> (b <=? c) = true -> (a <=? c) = true.
Proof.
  intros H1 H2. apply Z.leb_le in H1, H2. apply Z.leb_le. lia.
Defined.

(** X1 on an add of width two to an index of dimension three. *)
Lemma add_documents_raises_unchanged_witness :
  two_docs = two_docs /\ add_error = add_error /\
  [str "owl"] <> [] /\ [[0; 1]] <> [] /\
  (np_array [[0; 1]] = None \/
   exists width ix,
     np_array [[0; 1]] = Some width /\ index (self two_docs) = Some ix
     /\ d ix <> width).
Proof.
  apply (add_documents_raises_unchanged keep NoFault two_docs two_docs
           [str "owl"] [[0; 1]] [meta "c"] add_error).
  reflexivity.
Defined.

(** X2 on the store of two entries and a third one. *)
Lemma snapshot_round_trip_witness :
  let saved := snd (add NoFault two_docs [str "owl"] [[0; 0; 1]] [meta "c"]) in
  let loaded := __init__ 768 (disk saved) in
  self loaded = self saved /\
  stdout loaded = [] /\
  get_stats loaded = get_stats saved /\
  total_documents (get_stats loaded)
    = len (texts (kept (self two_docs))) + len [str "owl"] /\
  search loaded [0; 0; 1] 2 = search saved [0; 0; 1] 2.
Proof.
  apply (snapshot_round_trip keep dot_product Z.leb lowest two_docs
           [str "owl"] [[0; 0; 1]] [meta "c"] 768 [0; 0; 1] 2).
  - discriminate.
  - discriminate.
  - exists 3. split; [reflexivity |].
    intros ix H. injection H as <-. reflexivity.
Defined.

(** X5 on a search for one entry out of two. *)
Lemma search_returns_at_most_k_witness :
  let hits := [mkHit (str "dog") (meta "b") 1 1] in
  len hits <= Z.max 0 (Z.min 1 (len (texts (self two_docs)))) /\
  Forall (fun h => 1 <= hit_rank h <= Z.min 1 (len (texts (self two_docs)))) hits /\
  Sorted Z.lt (map hit_rank hits).
Proof.
  apply (search_returns_at_most_k keep dot_product Z.leb lowest two_docs
           [0; 1; 0] 1).
  reflexivity.
Defined.

(** X6 on the same search. *)
Lemma search_returns_the_best_witness :
  exists hits rest,
    search two_docs [0; 1; 0] 1 = Returns hits /\
    Permutation (map hit_score hits ++ rest)
                (map (dot_product (keep [0; 1; 0])) (rows (self two_docs))) /\
    (length rest = length (rows (self two_docs)) - length hits)%nat /\
    forall a b, In a (map hit_score hits) -> In b rest -> (b <=? a) = true.
Proof.
  apply (search_returns_the_best keep dot_product Z.leb lowest
           StoreClaims.leb_total leb_trans two_docs [0; 1; 0] 1).
  - split; reflexivity.
  - discriminate.
  - intros ix H. injection H as <-. reflexivity.
  - lia.
Defined.

End StoreExtras.

(** ** More about the chunker *)

Module ChunkExtras.
Import Py Utils ChunkSpec PyFacts Breaks ChunkFacts.

Lemma lstrip_fixed c s : isspace c = false -> lstrip (c :: s) = c :: s.
Proof. intros H. simpl. rewrite H. reflexivity. Qed.

Lemma lstrip_head s :
  lstrip s = [] \/ exists c r, lstrip s = c :: r /\ isspace c = false.
Proof.
  induction s as [| c s IH]; simpl; [auto |].
  destruct (isspace c) eqn:Hc; [exact IH |].
  right. exists c, s. auto.
Qed.

Lemma lstrip_idempotent s : lstrip (lstrip s) = lstrip s.
Proof.
  destruct (lstrip_head s) as [-> | (c & r & -> & Hc)]; [reflexivity |].
  apply lstrip_fixed. exact Hc.
Qed.

Lemma rstrip_idempotent s : rstrip (rstrip s) = rstrip s.
Proof.
  unfold rstrip. rewrite rev_involutive, lstrip_idempotent. reflexivity.
Qed.

(** [rstrip] keeps a first character that is not whitespace. *)
Lemma rstrip_keeps_head c s :
  isspace c = false -> exists r, rstrip (c :: s) = c :: r.
Proof.
  intros Hc. rewrite rstrip_firstn.
  pose proof (run_of_spaces_stops (rev s) c [] Hc) as Hrun.
  rewrite length_rev in Hrun. simpl rev.
  destruct (length (c :: s) - run_of_spaces (rev s ++ [c]))%nat as [| n] eqn:Hn;
    [cbn [length] in Hn; lia |].
  exists (firstn n s). reflexivity.
Qed.

(** A stripped text is its own strip. *)
Lemma strip_idempotent s : strip (strip s) = strip s.
Proof.
  unfold strip.
  destruct (lstrip_head s) as [-> | (c & r & -> & Hc)]; [reflexivity |].
  destruct (rstrip_keeps_head c r Hc) as (r' & Hr).
  rewrite Hr, (lstrip_fixed c r' Hc), <- Hr. apply rstrip_idempotent.
Qed.

(** A window of the loop, cut out of the text and stripped, is a span of
    the text inside the window. *)
Lemma stripped_window_span t s e :
  0 <= s < len t -> s < e ->
  exists a b : nat,
    strip (slice t s e) = slice t (s + Z.of_nat a) (s + Z.of_nat a + Z.of_nat b) /\
    s + Z.of_nat a + Z.of_nat b <= Z.min e (len t) /\
    len (strip (slice t s e)) = Z.of_nat b /\
    forall i c, s <= i < Z.min e (len t) ->
      nth_error t (Z.to_nat i) = Some c -> isspace c = false ->
      s + Z.of_nat a <= i < s + Z.of_nat a + Z.of_nat b.
Proof.
  intros Hs He.
  set (e' := Z.min e (len t)).
  assert (Hclamp : slice t s e = slice t s e').
  { rewrite slice_clamped by lia. subst e'. f_equal; lia. }
  rewrite Hclamp.
  destruct (strip_span (slice t s e')) as (a & b & Hab & Hstrip & Hkeep).
  assert (Hlen : len (slice t s e') = e' - s)
    by (apply length_slice_inside; subst e'; lia).
  unfold len in Hlen.
  exists a, b. rewrite Hstrip.
  rewrite slice_firstn_skipn by (subst e'; unfold len in *; lia).
  split; [reflexivity |]. split; [lia |]. split.
  - rewrite length_slice_inside by (subst e'; unfold len in *; lia). lia.
  - intros i c Hi Hc Hns.
    assert (Hk : (a <= Z.to_nat (i - s) < a + b)%nat).
    { apply (Hkeep _ c); [| exact Hns].
      rewrite nth_error_slice by (subst e'; unfold len in *; lia).
      rewrite <- Hc. f_equal. lia. }
    lia.
Qed.

(** [chunk_text] always returns. *)
Lemma chunk_text_returns t mcs ov :
  exists chunks ws,
    chunk_text t mcs ov = Some chunks /\ windows_of t mcs ov = Some ws /\
    (negb (truthy t) || (len t <=? mcs) = true ->
     chunks = if truthy t then [t] else []) /\
    (negb (truthy t) || (len t <=? mcs) = false ->
     chunks = flat_map (chunk_of t) ws /\
     chunk_windows (length t) t mcs ov 0 = Some ws).
Proof.
  unfold chunk_text, windows_of.
  destruct (negb (truthy t) || (len t <=? mcs)).
  - exists (if truthy t then [t] else []), []. repeat split; auto; discriminate.
  - destruct (chunk_windows_total (length t) t mcs ov 0) as (ws & Hws & _);
      [unfold len; lia |].
    exists (flat_map (chunk_of t) ws), ws.
    rewrite chunk_loop_windows, Hws. repeat split; auto; discriminate.
Qed.

(** A chunk of the loop is a non-empty stripped span of its window. *)
Lemma loop_chunk_span t mcs ov ws c :
  1 <= mcs -> chunk_windows (length t) t mcs ov 0 = Some ws ->
  In c (flat_map (chunk_of t) ws) ->
  c <> [] /\ len c <= mcs /\ strip c = c /\
  exists s e, 0 <= s < e /\ e <= len t /\ c = slice t s e.
Proof.
  intros Hm Hws Hin.
  destruct (chunk_windows_inv _ _ _ _ _ _ Hws) as (Hall & _ & _).
  rewrite Forall_forall in Hall.
  apply in_flat_map in Hin. destruct Hin as ([s e] & Hw & Hin).
  apply chunk_of_in in Hin. simpl in Hin. destruct Hin as [-> Hne].
  destruct (Hall _ Hw) as [Hs He]. simpl in Hs, He.
  pose proof (cut_point_bounds t mcs s ltac:(lia) Hm) as Hcut.
  rewrite <- He in Hcut.
  destruct (stripped_window_span t s e ltac:(lia) ltac:(lia))
    as (a & b & Hspan & Hend & Hlen & _).
  split; [exact Hne |]. split; [lia |]. split; [apply strip_idempotent |].
  exists (s + Z.of_nat a), (s + Z.of_nat a + Z.of_nat b).
  assert (0 < b)%nat.
  { destruct b; [| lia]. exfalso. apply Hne.
    destruct (strip (slice t s e)); [reflexivity |].
    unfold len in Hlen. simpl in Hlen. lia. }
  split; [lia |]. split; [lia | exact Hspan].
Qed.

(** X7.  For [max_chunk_size >= 1] every chunk is a non-empty contiguous
    span of the text of at most [max_chunk_size] characters; the chunks of
    a text longer than that have no whitespace at either end. *)
Theorem chunks_are_bounded_spans t mcs ov chunks :
  1 <= mcs -> chunk_text t mcs ov = Some chunks ->
  Forall (fun c => c <> [] /\ len c <= mcs /\
                   exists s e, 0 <= s < e /\ e <= len t /\ c = slice t s e)
         chunks /\
  (mcs < len t -> Forall (fun c => strip c = c) chunks).
Proof.
  intros Hm Hchunks.
  destruct (chunk_text_returns t mcs ov) as (chunks' & ws & Hc & _ & Hshort & Hlong).
  rewrite Hc in Hchunks. injection Hchunks as <-.
  destruct (negb (truthy t) || (len t <=? mcs)) eqn:Hpath.
  - rewrite (Hshort eq_refl).
    apply orb_true_iff in Hpath.
    destruct t as [| c t]; simpl; [split; [constructor | intros; constructor] |].
    destruct Hpath as [Hp | Hp]; [discriminate |]. apply Z.leb_le in Hp.
    split; [| lia].
    constructor; [| constructor].
    split; [discriminate |]. split; [exact Hp |].
    exists 0, (len (c :: t)). unfold len. simpl length.
    split; [lia |]. split; [lia |].
    rewrite slice_inside by (unfold len; simpl; lia).
    rewrite Z.sub_0_r, Nat2Z.id. change (Z.to_nat 0) with 0%nat.
    cbn [skipn]. symmetry. exact (firstn_all (c :: t)).
  - destruct (Hlong eq_refl) as [-> Hws].
    split; [| intros _]; apply Forall_forall; intros c Hin;
      destruct (loop_chunk_span t mcs ov ws c Hm Hws Hin)
        as (Hne & Hlen & Hstrip & Hspan); auto.
Qed.

(** X7 on a text of ten characters in windows of four. *)
Lemma chunks_are_bounded_spans_witness :
  Forall (fun c => c <> [] /\ len c <= 4 /\
                   exists s e, 0 <= s < e /\ e <= len (str "ab cd. efg")
                               /\ c = slice (str "ab cd. efg") s e)
         [str "ab c"; str "cd."; str "efg"; str "g"] /\
  (4 < len (str "ab cd. efg") ->
   Forall (fun c => strip c = c) [str "ab c"; str "cd."; str "efg"; str "g"]).
Proof.
  apply (chunks_are_bounded_spans (str "ab cd. efg") 4 1).
  - lia.
  - reflexivity.
Defined.

(** X8.  For [max_chunk_size >= 1] and [overlap >= 0] a text with a
    character that is not whitespace yields at least one chunk. *)
Theorem visible_text_yields_a_chunk t mcs ov :
  1 <= mcs -> 0 <= ov -> strip t <> [] ->
  exists c cs, chunk_text t mcs ov = Some (c :: cs).
Proof.
  intros Hm Ho Hvis.
  destruct (chunk_text_returns t mcs ov) as (chunks & ws & Hc & _ & Hshort & Hlong).
  rewrite Hc.
  destruct (negb (truthy t) || (len t <=? mcs)) eqn:Hpath.
  - rewrite (Hshort eq_refl).
    destruct t as [| c t]; [exfalso; apply Hvis; reflexivity |].
    exists (c :: t), []. reflexivity.
  - destruct (Hlong eq_refl) as [-> Hws].
    (* a character that is not whitespace *)
    destruct (strip_span t) as (a & b & Hab & Hstrip & _).
    assert (Hb : (0 < b)%nat).
    { destruct b; [| lia]. exfalso. apply Hvis. rewrite Hstrip. reflexivity. }
    destruct (lstrip_head t) as [Hnil | (c & r & Hl & Hns)].
    { exfalso. apply Hvis. unfold strip. rewrite Hnil. reflexivity. }
    rewrite lstrip_skipn in Hl.
    set (i := run_of_spaces t) in *.
    assert (Hi : nth_error t i = Some c).
    { rewrite <- (firstn_skipn i t) at 1. rewrite Hl.
      pose proof (run_of_spaces_le_length t).
      rewrite nth_error_app2 by (rewrite length_firstn; lia).
      rewrite length_firstn.
      replace (i - Nat.min i (length t))%nat with 0%nat by lia. reflexivity. }
    assert (Hlt : (i < length t)%nat) by (apply nth_error_Some; congruence).
    destruct (chunk_windows_cover _ _ _ _ _ _ Hm Ho (Z.le_refl 0) Hws (Z.of_nat i))
      as ([s e] & Hin & Hse); [unfold len; lia |].
    simpl in Hse.
    destruct (chunk_windows_inv _ _ _ _ _ _ Hws) as (Hall & _ & _).
    rewrite Forall_forall in Hall. destruct (Hall _ Hin) as [Hs _]. simpl in Hs.
    destruct (stripped_window_span t s e ltac:(lia) ltac:(lia))
      as (a' & b' & Hspan & Hend & Hlen & Hkeep).
    assert (Hin' : s + Z.of_nat a' <= Z.of_nat i < s + Z.of_nat a' + Z.of_nat b').
    { apply (Hkeep (Z.of_nat i) c); [unfold len; lia | | exact Hns].
      rewrite Nat2Z.id. exact Hi. }
    assert (Hchunk : In (strip (slice t s e)) (flat_map (chunk_of t) ws)).
    { apply in_flat_map. exists (s, e). split; [exact Hin |].
      apply chunk_of_in. simpl. split; [reflexivity |].
      intros Hnil. rewrite Hnil in Hlen. unfold len in Hlen. simpl in Hlen. lia. }
    destruct (flat_map (chunk_of t) ws) as [| c0 cs]; [contradiction |].
    exists c0, cs. reflexivity.
Qed.

(** X8 on a word between spaces. *)
Lemma visible_text_yields_a_chunk_witness :
  exists c cs, chunk_text (str "   a    ") 3 0 = Some (c :: cs).
Proof.
  apply (visible_text_yields_a_chunk (str "   a    ") 3 0).
  - lia.
  - lia.
  - discriminate.
Defined.

(** A window of at least 200 characters that ends inside the text is cut
    at most 198 characters before its raw end. *)
Lemma cut_point_lower t mcs start :
  0 <= start -> 200 <= mcs -> start + mcs - 198 <= cut_point t mcs start.
Proof.
  intros Hs Hm. unfold cut_point.
  destruct (Z.ltb_spec (start + mcs) (len t)) as [Hlt | Hge]; [| lia].
  replace (Z.max (start + mcs - 200) start) with (start + mcs - 200) by lia.
  destruct (truthy (sentence_breaks t (start + mcs - 200) (start + mcs))) eqn:Hb;
    [| lia].
  apply truthy_true in Hb. apply max_list_in in Hb.
  destruct (break_sound _ _ _ _ Hb) as (p & -> & Hp).
  apply sentence_end_bounds in Hp. lia.
Qed.

Lemma chunk_windows_bound_with_breaks fuel t mcs ov start ws :
  200 <= mcs -> ov + 198 < mcs -> 0 <= start <= len t ->
  chunk_windows fuel t mcs ov start = Some ws ->
  Z.of_nat (length ws) <= ceil_div (len t - start) (mcs - 198 - ov).
Proof.
  intros Hm Hd. unfold ceil_div. revert start ws.
  induction fuel as [| fuel IH]; intros start ws Hs H.
  - simpl in H. destruct (Z.ltb_spec start (len t)); [discriminate |].
    injection H as <-. simpl. apply Z.div_pos; lia.
  - destruct (Z.lt_ge_cases start (len t)) as [Hlt | Hge].
    + rewrite chunk_windows_step in H by assumption. cbv zeta in H.
      pose proof (cut_point_lower t mcs start ltac:(lia) Hm) as Hlow.
      remember (cut_point t mcs start) as e eqn:Hcp.
      assert (Hone : 1 <= (len t - start + (mcs - 198 - ov) - 1) / (mcs - 198 - ov)).
      { apply Z.div_le_lower_bound; lia. }
      unfold next_start in H.
      destruct (Z.geb_spec (Z.max (e - ov) (start + 1)) (len t)) as [Hbr | Hgo].
      * injection H as <-. simpl length. lia.
      * destruct (chunk_windows fuel t mcs ov (Z.max (e - ov) (start + 1)))
          as [rest |] eqn:Hrest; [| discriminate].
        simpl in H. injection H as <-.
        assert (Hnext : 0 <= Z.max (e - ov) (start + 1) <= len t) by lia.
        specialize (IH _ _ Hnext Hrest).
        assert (Hmono :
                  (len t - Z.max (e - ov) (start + 1) + (mcs - 198 - ov) - 1)
                    / (mcs - 198 - ov)
                  <= (len t - (start + (mcs - 198 - ov)) + (mcs - 198 - ov) - 1)
                       / (mcs - 198 - ov)).
        { apply Z.div_le_mono; lia. }
        replace (len t - start + (mcs - 198 - ov) - 1)
          with (len t - (start + (mcs - 198 - ov)) + (mcs - 198 - ov) - 1
                + 1 * (mcs - 198 - ov)) by lia.
        rewrite Z.div_add by lia.
        simpl length. lia.
    + rewrite chunk_windows_done in H by lia. injection H as <-.
      simpl. apply Z.div_pos; lia.
Qed.

Lemma length_chunks_of t ws :
  (length (flat_map (chunk_of t) ws) <= length ws)%nat.
Proof.
  induction ws as [| w ws IH]; simpl; [lia |].
  rewrite length_app. unfold chunk_of at 1.
  destruct (truthy (strip (slice t (fst w) (snd w)))); simpl; lia.
Qed.

(** X16.  With sentence breaks the loop still advances fast: for
    [max_chunk_size >= 200] and [overlap + 198 < max_chunk_size] every
    iteration but the last moves the start by at least
    [max_chunk_size - 198 - overlap], so there are at most
    [ceil(len(T) / (max_chunk_size - 198 - overlap))] iterations and as
    many chunks: [ceil(len(T) / 602)] for the sizes the callers use. *)
Theorem iterations_bounded_with_breaks t mcs ov :
  200 <= mcs -> ov + 198 < mcs ->
  exists chunks ws,
    chunk_text t mcs ov = Some chunks /\
    windows_of t mcs ov = Some ws /\
    Z.of_nat (length ws) <= ceil_div (len t) (mcs - 198 - ov) /\
    Z.of_nat (length chunks) <= ceil_div (len t) (mcs - 198 - ov).
Proof.
  intros Hm Hd.
  destruct (chunk_text_returns t mcs ov) as (chunks & ws & Hc & Hw & Hshort & Hlong).
  exists chunks, ws. split; [exact Hc |]. split; [exact Hw |].
  pose proof (len_nonneg t) as Hlen.
  destruct (negb (truthy t) || (len t <=? mcs)) eqn:Hpath.
  - unfold windows_of in Hw. rewrite Hpath in Hw. injection Hw as <-.
    rewrite (Hshort eq_refl). unfold ceil_div.
    split; [simpl; apply Z.div_pos; lia |].
    destruct t as [| c t]; simpl truthy; simpl length.
    + apply Z.div_pos; lia.
    + change (Z.of_nat 1) with 1. apply Z.div_le_lower_bound; [lia |].
      unfold len in *. simpl length in *. lia.
  - destruct (Hlong eq_refl) as [-> Hws].
    pose proof (chunk_windows_bound_with_breaks _ _ _ _ _ _ Hm Hd
                  (conj (Z.le_refl 0) Hlen) Hws) as Hb.
    rewrite Z.sub_0_r in Hb. split; [exact Hb |].
    pose proof (length_chunks_of t ws). lia.
Qed.

(** X16 on a text of 2408 characters and the sizes of the callers: each of
    the first three windows is cut at a sentence end 198 characters before
    its raw end, the loop takes four iterations, and the bound is four. *)
Lemma iterations_bounded_with_breaks_witness :
  (windows_of SampleClients.three_sentences 1000 200
     = Some [(0, 802); (602, 1404); (1204, 2006); (1806, 2806)] /\
   ceil_div (len SampleClients.three_sentences) (1000 - 198 - 200) = 4) /\
  exists chunks ws,
    chunk_text SampleClients.three_sentences 1000 200 = Some chunks /\
    windows_of SampleClients.three_sentences 1000 200 = Some ws /\
    Z.of_nat (length ws)
      <= ceil_div (len SampleClients.three_sentences) (1000 - 198 - 200) /\
    Z.of_nat (length chunks)
      <= ceil_div (len SampleClients.three_sentences) (1000 - 198 - 200).
Proof.
  split; [split; vm_compute; reflexivity |].
  apply (iterations_bounded_with_breaks SampleClients.three_sentences 1000 200); lia.
Defined.

End ChunkExtras.

(** ** The callers of the store and of the chunker *)

Module RagFacts.
Import Py Utils Store Rag PyFacts ChunkFacts ChunkExtras StoreFacts.

Lemma enumerate_bounds {A} (l : list A) (i : Z) :
  length (enumerate i l) = length l /\
  Forall (fun ic => i <= fst ic < i + len l) (enumerate i l).
Proof.
  revert i. induction l as [| x l IH]; intros i; simpl.
  - split; [reflexivity | constructor].
  - destruct (IH (i + 1)) as [Hlen Hall]. split; [rewrite Hlen; reflexivity |].
    unfold len in *. simpl length.
    constructor; [simpl; lia |].
    eapply Forall_impl; [| exact Hall]. simpl. intros ic Hic. lia.
Qed.

(** What one document contributes. *)
Lemma gather_one_spec (doc : document) :
  exists ts ms,
    gather_one doc = Some (ts, ms) /\
    length ts = length ms /\
    Forall (fun t => strip t <> [] /\ len t <= 1000) ts /\
    Forall chunk_record ms.
Proof.
  unfold gather_one.
  set (content := match doc_content doc with Some c => c | None => [] end).
  destruct (truthy (strip content)) eqn:Hvis; cbn [negb].
  2:{ exists [], []. repeat split; constructor. }
  apply truthy_true in Hvis.
  destruct (chunk_text_returns content 1000 200)
    as (chunks & ws & Hc & _ & Hshort & Hlong).
  rewrite Hc.
  destruct (enumerate_bounds chunks 0) as [Hlen Hids].
  exists chunks, (map (fun ic => chunk_metadata doc (fst ic) (len chunks))
                      (enumerate 0 chunks)).
  split; [reflexivity |]. split; [rewrite length_map, Hlen; reflexivity |].
  split.
  - destruct (negb (truthy content) || (len content <=? 1000)) eqn:Hpath.
    + rewrite (Hshort eq_refl).
      destruct content as [| c content']; [exfalso; apply Hvis; reflexivity |].
      apply orb_true_iff in Hpath. destruct Hpath as [Hp | Hp]; [discriminate |].
      apply Z.leb_le in Hp. simpl. constructor; [auto | constructor].
    + destruct (Hlong eq_refl) as [-> Hws].
      apply Forall_forall. intros c Hin.
      destruct (loop_chunk_span content 1000 200 ws c ltac:(lia) Hws Hin)
        as (Hne & Hle & Hstrip & _).
      split; [rewrite Hstrip; exact Hne | exact Hle].
  - apply Forall_map. eapply Forall_impl; [| exact Hids].
    intros [i c] Hi. simpl in Hi. unfold chunk_metadata, chunk_record. simpl fst.
    eexists _, _, i, (len chunks). split; [reflexivity | lia].
Qed.

Lemma gather_spec (docs : list document) :
  forall ts0 ms0,
  exists ts ms,
    gather docs ts0 ms0 = Some (ts0 ++ ts, ms0 ++ ms) /\
    length ts = length ms /\
    Forall (fun t => strip t <> [] /\ len t <= 1000) ts /\
    Forall chunk_record ms.
Proof.
  induction docs as [| doc docs IH]; intros ts0 ms0; simpl.
  - exists [], []. rewrite !app_nil_r. repeat split; constructor.
  - destruct (gather_one_spec doc) as (ts1 & ms1 & -> & Hlen1 & Hts1 & Hms1).
    destruct (IH (ts0 ++ ts1) (ms0 ++ ms1)) as (ts & ms & -> & Hlen & Hts & Hms).
    exists (ts1 ++ ts), (ms1 ++ ms). rewrite <- !app_assoc.
    split; [reflexivity |]. split; [rewrite !length_app; lia |].
    split; apply Forall_app; auto.
Qed.

Lemma nth_error_enumerate {A} (l : list A) (k : Z) (i : nat) (j : Z) (x : A) :
  nth_error (enumerate k l) i = Some (j, x) -> j = k + Z.of_nat i.
Proof.
  revert k i. induction l as [| y l IH]; intros k i; simpl.
  - destruct i; discriminate.
  - destruct i as [| i]; simpl.
    + intros [= <- _]. lia.
    + intros H. apply IH in H. lia.
Qed.

(** One document contributes its chunks, or nothing. *)
Lemma gather_one_contributes (doc : document) :
  exists part, gather_one doc = Some part /\ contributes doc part.
Proof.
  unfold gather_one, contributes. cbv zeta.
  set (content := match doc_content doc with Some c => c | None => [] end).
  destruct (truthy (strip content)) eqn:Hvis; cbn [negb].
  - apply truthy_true in Hvis.
    destruct (chunk_text_returns content 1000 200) as (chunks & ws & Hc & _).
    rewrite Hc. eexists. split; [reflexivity |]. cbn [fst snd].
    split; [rewrite length_map; symmetry; apply enumerate_bounds |].
    split; [intros; contradiction |]. split; [reflexivity |].
    intros i m Hm. rewrite nth_error_map in Hm.
    destruct (nth_error (enumerate 0 chunks) i) as [[j x] |] eqn:Hn;
      [| discriminate].
    simpl in Hm. injection Hm as <-.
    apply nth_error_enumerate in Hn. subst j. reflexivity.
  - apply truthy_false in Hvis. exists ([], []).
    split; [reflexivity |]. cbn [fst snd].
    split; [reflexivity |]. split; [reflexivity |].
    split; [intros; contradiction |].
    intros i m Hm. destruct i; discriminate.
Qed.

Lemma gather_parts (docs : list document) :
  forall ts0 ms0,
  exists parts,
    Forall2 contributes docs parts /\
    gather docs ts0 ms0 =
    Some (ts0 ++ concat (map fst parts), ms0 ++ concat (map snd parts)).
Proof.
  induction docs as [| doc docs IH]; intros ts0 ms0; simpl.
  - exists []. simpl. rewrite !app_nil_r. split; [constructor | reflexivity].
  - destruct (gather_one_contributes doc) as ([ts1 ms1] & -> & Hpart).
    destruct (IH (ts0 ++ ts1) (ms0 ++ ms1)) as (parts & Hparts & ->).
    exists ((ts1, ms1) :: parts). simpl. rewrite <- !app_assoc.
    split; [constructor; assumption | reflexivity].
Qed.

(** X9.  The loop of [add_documents] over the documents always ends, with
    as many metadatas as texts.  The texts are, in the order of the
    documents, the chunks of each document with visible content; a
    document without content or with blank content contributes nothing;
    the metadata of the i-th chunk of a document names the source and the
    title of that document and the chunk number [i].  No text is blank or
    longer than 1000 characters, and every metadata carries the four keys
    with a chunk number below the number of chunks. *)
Theorem texts_and_metadatas_in_lockstep (docs : list document) :
  exists ts ms parts,
    gather docs [] [] = Some (ts, ms) /\
    Forall2 contributes docs parts /\
    ts = concat (map fst parts) /\
    ms = concat (map snd parts) /\
    length ts = length ms /\
    Forall (fun t => strip t <> [] /\ len t <= 1000) ts /\
    Forall chunk_record ms.
Proof.
  destruct (gather_spec docs [] []) as (ts & ms & Hg & Hlen & Hts & Hms).
  destruct (gather_parts docs [] []) as (parts & Hparts & Hg').
  simpl in Hg, Hg'. rewrite Hg in Hg'. injection Hg' as -> ->.
  eexists _, _, parts. split; [exact Hg |]. auto 10.
Qed.

Section WithClients.

Context {F : Type}.
Variable normalize_L2 : list F -> list F.
Variable inner_product : list F -> list F -> F.
Variable fle : F -> F -> bool.
Variable padding_score : F.
Variable _generate_embeddings : list text -> option (list (list F)).
Variable _generate_response : text -> text -> text.

Local Abbreviation add_documents :=
  (Rag.add_documents normalize_L2 _generate_embeddings).
Local Abbreviation query :=
  (Rag.query normalize_L2 inner_product fle padding_score
     _generate_embeddings _generate_response).

(** X10.  When the embedding client gives one vector per text, an aligned
    store stays aligned through [add_documents] of any documents, whether
    the call returns or raises; a call that raises, and a call with no
    visible content, leave the store, the artifacts and the output as they
    were. *)
Theorem rag_add_documents_keeps_alignment fault (w : World F) docs :
  aligned (self w) ->
  (forall ts es, _generate_embeddings ts = Some es -> length es = length ts) ->
  let out := add_documents fault w docs in
  aligned (self (snd out)) /\
  (forall msg, fst out = Raised msg -> snd out = w) /\
  (Forall (fun doc => forall c, doc_content doc = Some c -> strip c = []) docs ->
   out = (Returned, w)).
Proof.
  intros Hal Hembed. cbv zeta. unfold Rag.add_documents.
  destruct (gather_spec docs [] []) as (ts & ms & Hg & Hlen & Hts & _).
  simpl in Hg. rewrite Hg.
  split; [| split].
  - destruct (truthy ts); [| exact Hal].
    destruct (_generate_embeddings ts) as [es |] eqn:He; [| exact Hal].
    pose proof (StoreClaims.step_keeps_positions normalize_L2 w
                  (Add fault ts es ms) Hal) as Hstep.
    simpl in Hstep. destruct Hstep as [Hal' _].
    { pose proof (Hembed ts es He). split; congruence. }
    destruct (Store.add_documents normalize_L2 fault w ts es ms) as [[| msg] w'];
      exact Hal'.
  - intros msg. destruct (truthy ts); [| discriminate].
    destruct (_generate_embeddings ts) as [es |]; [| reflexivity].
    destruct (add_documents_spec normalize_L2 fault w ts es ms)
      as [[-> _] | [[-> _] | (width & _ & _ & _ & _ & ->)]]; simpl;
      try reflexivity; discriminate.
  - intros Hblank.
    assert (Hnil : ts = []).
    { clear Hembed Hlen Hts Hal. revert ts ms Hg.
      assert (Hgen : forall ts0 ms0 ts ms,
                 gather docs ts0 ms0 = Some (ts, ms) -> ts = ts0).
      { induction Hblank as [| doc docs Hdoc Hrest IH]; intros ts0 ms0 ts ms Hg.
        - simpl in Hg. congruence.
        - simpl in Hg. unfold gather_one in Hg.
          assert (Hs : strip (match doc_content doc with
                              | Some c => c | None => [] end) = []).
          { destruct (doc_content doc) as [c |]; [apply Hdoc |]; reflexivity. }
          rewrite Hs in Hg. simpl in Hg.
          apply IH in Hg. rewrite app_nil_r in Hg. exact Hg. }
      intros ts ms Hg. exact (Hgen [] [] ts ms Hg). }
    rewrite Hnil. reflexivity.
Qed.

Lemma existsb_eqb_in (x : string) (l : list string) :
  existsb (String.eqb x) l = true <-> In x l.
Proof.
  rewrite existsb_exists. split.
  - intros (y & Hy & Heq). apply String.eqb_eq in Heq. subst. exact Hy.
  - intros Hx. exists x. split; [exact Hx | apply String.eqb_refl].
Qed.

Lemma collect_sources_nodup (results : list (hit F)) :
  forall sources, NoDup sources -> NoDup (collect_sources results sources).
Proof.
  induction results as [| h results IH]; intros sources Hnd; simpl; [exact Hnd |].
  apply IH.
  destruct (existsb (String.eqb (source_info h)) sources) eqn:Hin; [exact Hnd |].
  apply NoDup_app; [exact Hnd | repeat constructor; auto |].
  intros x Hx [<- | []].
  apply existsb_eqb_in in Hx. congruence.
Qed.

Lemma collect_sources_from (results : list (hit F)) :
  forall sources s,
    In s (collect_sources results sources) ->
    In s sources \/ exists h, In h results /\ s = source_info h.
Proof.
  induction results as [| h results IH]; intros sources s Hs; simpl in *; [auto |].
  destruct (IH _ _ Hs) as [Hin | (h' & Hh' & ->)].
  - destruct (existsb (String.eqb (source_info h)) sources); [auto |].
    apply in_app_or in Hin. destruct Hin as [Hin | [<- | []]]; [auto |].
    right. exists h. auto.
  - right. exists h'. auto.
Qed.

Lemma nodup_firstn {A} (n : nat) (l : list A) : NoDup l -> NoDup (firstn n l).
Proof.
  intros H. rewrite <- (firstn_skipn n l) in H.
  exact (NoDup_app_remove_r _ _ H).
Qed.

Lemma search_empty_store (w : World F) e k :
  index (self w) = None \/ texts (self w) = [] ->
  Store.similarity_search normalize_L2 inner_product fle padding_score w e k
  = Returns [].
Proof.
  unfold Store.similarity_search. intros [Hnone | Hempty].
  - rewrite Hnone. reflexivity.
  - destruct (index (self w)); [| reflexivity].
    rewrite Hempty. reflexivity.
Qed.

(** X11.  [query] names at most three sources, never the same one twice,
    each the title and source of a result of the search; it names none
    when it answers with the error text, and on a store without index or
    without texts it answers that it does not know, or with the error
    text, without a source. *)
Theorem query_sources (w : World F) (question : text) (k : Z) :
  let out := query w question k in
  (length (snd out) <= 3)%nat /\
  NoDup (snd out) /\
  (fst out = ErrorProcessingQuery -> snd out = []) /\
  (index (self w) = None \/ texts (self w) = [] ->
   snd out = [] /\
   (fst out = Answer dont_know \/ fst out = ErrorProcessingQuery)) /\
  (forall e rest hits,
     _generate_embeddings [question] = Some (e :: rest) ->
     Store.similarity_search normalize_L2 inner_product fle padding_score w e k
       = Returns hits ->
     forall s, In s (snd out) -> exists h, In h hits /\ s = source_info h).
Proof.
  cbv zeta. unfold Rag.query.
  destruct (_generate_embeddings [question]) as [[| e rest] |] eqn:He.
  1,3: simpl; repeat split; auto; try constructor; try discriminate;
       intros; contradiction.
  destruct (Store.similarity_search _ _ _ _ w e k) as [hits | msg] eqn:Hsearch.
  - destruct hits as [| h hits]; cbn [truthy negb fst snd].
    + repeat split; auto; try constructor. intros; contradiction.
    + split; [apply firstn_le_length |].
      split; [apply nodup_firstn, collect_sources_nodup; constructor |].
      split; [discriminate |]. split.
      * intros Hempty. rewrite (search_empty_store w e k Hempty) in Hsearch.
        discriminate.
      * intros e' rest' hits' [= <- <-]. rewrite Hsearch. intros [= <-] s Hs.
        apply StoreClaims.in_firstn in Hs.
        destruct (collect_sources_from _ _ _ Hs) as [[] | Hh]. exact Hh.
  - cbn [fst snd]. repeat split; auto; try constructor.
    + intros e' rest' hits' [= <- <-]. rewrite Hsearch. discriminate.
Qed.

End WithClients.

(** X10 on a new store and one document with content. *)
Lemma rag_add_documents_keeps_alignment_witness :
  let out := Rag.add_documents Sample.keep SampleClients.same_vector NoFault
               Sample.fresh SampleClients.two_documents in
  aligned (self (snd out)) /\
  (forall msg, fst out = Raised msg -> snd out = Sample.fresh) /\
  (Forall (fun doc => forall c, doc_content doc = Some c -> strip c = [])
          SampleClients.two_documents ->
   out = (Returned, Sample.fresh)).
Proof.
  apply (rag_add_documents_keeps_alignment Sample.keep SampleClients.same_vector
           NoFault Sample.fresh SampleClients.two_documents).
  - split; reflexivity.
  - intros ts es H. injection H as <-. apply length_map.
Defined.

End RagFacts.

(** ** The rest of src/utils.py *)

Module UtilsRestFacts.
Import Py Utils UtilsRest PyFacts.

(** *** Runs and [strip(chars)] *)

Lemma run_le_length p s : (run p s <= length s)%nat.
Proof.
  induction s as [| c s IH]; simpl; [lia |].
  destruct (p c); lia.
Qed.

Lemma run_stops p s1 c s2 :
  p c = false -> (run p (s1 ++ c :: s2) <= length s1)%nat.
Proof.
  intros Hc. induction s1 as [| x s1 IH]; simpl.
  - rewrite Hc. lia.
  - destruct (p x); lia.
Qed.

(** What follows a run is not of the class. *)
Lemma after_run p s :
  skipn (run p s) s = [] \/
  exists c r, skipn (run p s) s = c :: r /\ p c = false.
Proof.
  induction s as [| c s IH]; simpl; [auto |].
  destruct (p c) eqn:Hc; [exact IH |].
  right. exists c, s. auto.
Qed.

Lemma lstrip_chars_skipn p s : lstrip_chars p s = skipn (run p s) s.
Proof.
  induction s as [| c s IH]; simpl; [reflexivity |].
  destruct (p c); [exact IH | reflexivity].
Qed.

Lemma lstrip_chars_fixed p c s : p c = false -> lstrip_chars p (c :: s) = c :: s.
Proof. intros H. simpl. rewrite H. reflexivity. Qed.

Lemma lstrip_chars_idempotent p s :
  lstrip_chars p (lstrip_chars p s) = lstrip_chars p s.
Proof.
  rewrite (lstrip_chars_skipn p s).
  destruct (after_run p s) as [-> | (c & r & -> & Hc)]; [reflexivity |].
  apply lstrip_chars_fixed. exact Hc.
Qed.

Lemma rstrip_chars_keeps_head p c s :
  p c = false -> exists r, rev (lstrip_chars p (rev (c :: s))) = c :: r.
Proof.
  intros Hc. rewrite lstrip_chars_skipn, skipn_rev, rev_involutive.
  pose proof (run_stops p (rev s) c [] Hc) as Hrun.
  rewrite length_rev in Hrun. simpl rev.
  destruct (length (c :: s) - run p (rev s ++ [c]))%nat as [| n] eqn:Hn;
    [cbn [length] in Hn; lia |].
  exists (firstn n s). reflexivity.
Qed.

Lemma strip_chars_idempotent p s :
  strip_chars p (strip_chars p s) = strip_chars p s.
Proof.
  unfold strip_chars. rewrite (lstrip_chars_skipn p s).
  destruct (after_run p s) as [-> | (c & r & -> & Hc)]; [reflexivity |].
  destruct (rstrip_chars_keeps_head p c r Hc) as (r' & Hr).
  rewrite Hr, (lstrip_chars_fixed p c r' Hc), <- Hr.
  rewrite rev_involutive, lstrip_chars_idempotent. reflexivity.
Qed.

(** [strip(chars)] keeps one span of the text. *)
Lemma strip_chars_span p s :
  exists a b : nat, strip_chars p s = firstn b (skipn a s).
Proof.
  unfold strip_chars.
  rewrite (lstrip_chars_skipn p (rev _)), skipn_rev, rev_involutive.
  rewrite lstrip_chars_skipn. eauto.
Qed.

(** *** Neighbours *)

Lemma no_adjacent_skipn p n l : no_adjacent p l -> no_adjacent p (skipn n l).
Proof.
  revert l. induction n as [| n IH]; intros l H; [exact H |].
  destruct l as [| a l]; [exact H |]. simpl. apply IH. apply H.
Qed.

Lemma no_adjacent_firstn p n l : no_adjacent p l -> no_adjacent p (firstn n l).
Proof.
  revert l. induction n as [| n IH]; intros l H; [exact I |].
  destruct l as [| a l]; [exact I |].
  destruct H as [Ha Hl]. cbn [firstn no_adjacent]. split; [| apply IH; exact Hl].
  destruct n as [| n]; [exact I |].
  destruct l as [| b l]; [exact I |]. exact Ha.
Qed.

(** *** [re.sub] *)

Lemma sub_from_skipn m repl s skip :
  sub_from m repl s skip = sub m repl (skipn skip s).
Proof.
  revert skip. induction s as [| c s IH]; intros skip.
  - destruct skip; reflexivity.
  - destruct skip as [| k]; [reflexivity |]. simpl. apply IH.
Qed.

Lemma sub_from_forall (Q : char -> Prop) m repl s skip :
  Forall Q s -> Forall Q repl -> Forall Q (sub_from m repl s skip).
Proof.
  intros Hs Hrepl. revert skip.
  induction Hs as [| c s Hc Hs IH]; intros skip; simpl; [constructor |].
  destruct skip; [| apply IH].
  destruct (m (c :: s)).
  - apply Forall_app. split; [exact Hrepl | apply IH].
  - constructor; [exact Hc | apply IH].
Qed.

(** A class of one character: every character of the class is replaced,
    the others stay. *)
Lemma sub_one_map p r s :
  sub (one p) [r] s = map (fun c => if p c then r else c) s.
Proof.
  unfold sub. induction s as [| c s IH]; simpl; [reflexivity |].
  destruct (p c); simpl; rewrite IH; reflexivity.
Qed.

(** A character outside the class is kept where it is. *)
Lemma sub_keeps k p repl c s :
  (1 <= k)%nat -> p c = false ->
  sub (at_least k p) repl (c :: s) = c :: sub (at_least k p) repl s.
Proof.
  intros Hk Hc. unfold sub, at_least. simpl. rewrite Hc.
  destruct (Nat.leb_spec k 0); [lia | reflexivity].
Qed.

(** A run of the class that is long enough is replaced as a whole. *)
Lemma sub_replaces k p repl c s :
  p c = true -> (k <= S (run p s))%nat ->
  sub (at_least k p) repl (c :: s)
  = repl ++ sub (at_least k p) repl (skipn (run p s) s).
Proof.
  intros Hc Hk. unfold sub at 1. unfold at_least. simpl. rewrite Hc.
  destruct (Nat.leb_spec k (S (run p s))); [| lia].
  rewrite sub_from_skipn.
  replace (S (run p s) - 1)%nat with (run p s) by lia. reflexivity.
Qed.

(** A run that is too short is kept; for [k <= 2] it is one character. *)
Lemma sub_keeps_short k p repl c s :
  p c = true -> (S (run p s) < k <= 2)%nat ->
  sub (at_least k p) repl (c :: s) = c :: sub (at_least k p) repl s.
Proof.
  intros Hc Hk. unfold sub, at_least. simpl. rewrite Hc.
  destruct (Nat.leb_spec k (S (run p s))); [lia | reflexivity].
Qed.

(** After the replacement of the runs of a class by one character of the
    class, no two characters of the class are neighbours. *)
Lemma sub_no_adjacent k p r :
  (1 <= k <= 2)%nat -> p r = true ->
  forall n s, (length s <= n)%nat ->
    no_adjacent p (sub (at_least k p) [r] s).
Proof.
  intros Hk Hr. induction n as [| n IH]; intros s Hn.
  - destruct s; [exact I | simpl in Hn; lia].
  - destruct s as [| c s]; [exact I |]. simpl in Hn.
    destruct (p c) eqn:Hc.
    + assert (Htail : exists x,
                 sub (at_least k p) [r] (c :: s)
                 = x :: sub (at_least k p) [r] (skipn (run p s) s)).
      { destruct (Nat.le_gt_cases k (S (run p s))) as [Hle | Hgt].
        - exists r. rewrite sub_replaces by assumption. reflexivity.
        - exists c. rewrite sub_keeps_short by (auto; lia).
          replace (run p s) with 0%nat by lia. reflexivity. }
      destruct Htail as (x & ->).
      pose proof (run_le_length p s) as Hrun.
      assert (Hrest : no_adjacent p (sub (at_least k p) [r] (skipn (run p s) s))).
      { apply IH. rewrite length_skipn. lia. }
      split; [| exact Hrest].
      destruct (after_run p s) as [-> | (c' & r' & -> & Hc')]; [exact I |].
      rewrite sub_keeps by (auto; lia). rewrite Hc'. apply andb_false_r.
    + rewrite sub_keeps by (auto; lia).
      split; [| apply IH; lia].
      destruct (sub (at_least k p) [r] s); [exact I |].
      rewrite Hc. reflexivity.
Qed.

(** Where no two characters of the class are neighbours, replacing its
    runs by its one character changes nothing. *)
Lemma sub_fixed p r s :
  (forall c, p c = true -> c = r) -> no_adjacent p s ->
  sub (at_least 1 p) [r] s = s.
Proof.
  intros Hone. induction s as [| c s IH]; intros Hs; [reflexivity |].
  destruct Hs as [Hc Hs].
  destruct (p c) eqn:Hpc.
  - assert (Hrun : run p s = 0%nat).
    { destruct s as [| b s]; [reflexivity |]. simpl.
      simpl in Hc. rewrite Hc. reflexivity. }
    rewrite sub_replaces by (auto; lia).
    rewrite Hrun. simpl. rewrite (IH Hs), (Hone c Hpc). reflexivity.
  - rewrite sub_keeps by (auto; lia). rewrite (IH Hs). reflexivity.
Qed.

(** *** [sanitize_filename] *)

Lemma underscore_is_safe : unsafe underscore = false.
Proof. reflexivity. Qed.

(** The name before the default is put in. *)
Lemma sanitized_span (f : text) :
  let g := strip_chars underscore_or_blank
             (sub (at_least 1 is_underscore) [underscore]
                (sub (one unsafe) [underscore] f)) in
  Forall (fun c => unsafe c = false) g /\
  no_adjacent is_underscore g /\
  strip_chars underscore_or_blank g = g.
Proof.
  cbv zeta.
  set (a := sub (one unsafe) [underscore] f).
  set (b := sub (at_least 1 is_underscore) [underscore] a).
  assert (Ha : Forall (fun c => unsafe c = false) a).
  { subst a. rewrite sub_one_map. apply Forall_map, Forall_forall.
    intros c _. destruct (unsafe c) eqn:Hc; [reflexivity | exact Hc]. }
  assert (Hb : Forall (fun c => unsafe c = false) b).
  { subst b. apply sub_from_forall; [exact Ha | repeat constructor]. }
  assert (Hadj : no_adjacent is_underscore b).
  { subst b. apply (sub_no_adjacent 1 is_underscore underscore) with (n := length a);
      [lia | reflexivity | lia]. }
  destruct (strip_chars_span underscore_or_blank b) as (x & y & Hspan).
  split; [| split].
  - rewrite Hspan. apply Forall_forall. intros c Hc.
    rewrite Forall_forall in Hb. apply Hb.
    apply StoreClaims.in_firstn in Hc.
    rewrite <- (firstn_skipn x b). apply in_or_app. right. exact Hc.
  - rewrite Hspan. apply no_adjacent_firstn, no_adjacent_skipn. exact Hadj.
  - apply strip_chars_idempotent.
Qed.

(** X12.  A sanitized file name is never empty, holds none of the
    characters that line 105 replaces, has no two underscores in a row, and
    neither begins nor ends with an underscore or a space. *)
Theorem sanitize_filename_is_safe (f : text) :
  sanitize_filename f <> [] /\
  Forall (fun c => unsafe c = false) (sanitize_filename f) /\
  no_adjacent is_underscore (sanitize_filename f) /\
  strip_chars underscore_or_blank (sanitize_filename f) = sanitize_filename f.
Proof.
  unfold sanitize_filename.
  destruct (sanitized_span f) as (Hsafe & Hadj & Hstrip).
  destruct (strip_chars underscore_or_blank _) as [| c g] eqn:Hg.
  - cbn [truthy].
    split; [discriminate |]. split; [repeat constructor |].
    split; [vm_compute; tauto | reflexivity].
  - cbn [truthy]. split; [discriminate |]. auto.
Qed.

(** X13.  Sanitizing a sanitized file name changes nothing. *)
Theorem sanitize_filename_idempotent (f : text) :
  sanitize_filename (sanitize_filename f) = sanitize_filename f.
Proof.
  destruct (sanitized_span f) as (Hsafe & Hadj & Hstrip).
  unfold sanitize_filename at 2 3.
  destruct (strip_chars underscore_or_blank _) as [| c0 g0] eqn:Hg;
    cbn [truthy]; [reflexivity |].
  set (g := c0 :: g0) in *.
  unfold sanitize_filename.
  assert (H1 : sub (one unsafe) [underscore] g = g).
  { rewrite sub_one_map. rewrite <- (map_id g) at 2.
    apply map_ext_in. intros c Hc.
    rewrite Forall_forall in Hsafe. rewrite (Hsafe c Hc). reflexivity. }
  rewrite H1.
  rewrite (sub_fixed is_underscore underscore g); [| | exact Hadj].
  - rewrite Hstrip. reflexivity.
  - intros c Hc. apply N.eqb_eq in Hc. exact Hc.
Qed.

(** *** [truncate_text] *)

Lemma rfind_from_spec c s :
  forall pos found,
    (rfind_from c s pos found = found /\ ~ In c s) \/
    (pos <= rfind_from c s pos found < pos + len s /\
     nth_error s (Z.to_nat (rfind_from c s pos found - pos)) = Some c).
Proof.
  induction s as [| x s IH]; intros pos found; simpl.
  - left. auto.
  - unfold len in *. simpl length.
    destruct (IH (pos + 1) (if (x =? c)%N then pos else found))
      as [[Hr Hnot] | [Hr Hnth]].
    + rewrite Hr. destruct (N.eqb_spec x c) as [-> | Hne].
      * right. split; [lia |]. rewrite Z.sub_diag. reflexivity.
      * left. split; [reflexivity |]. intros [H | H]; auto.
    + right. split; [lia |].
      replace (Z.to_nat (rfind_from c s (pos + 1)
                           (if (x =? c)%N then pos else found) - pos))
        with (S (Z.to_nat (rfind_from c s (pos + 1)
                             (if (x =? c)%N then pos else found) - (pos + 1))))
        by lia.
      exact Hnth.
Qed.

(** [rfind] gives -1 or the offset of an occurrence. *)
Lemma rfind_spec c s :
  rfind c s = -1 \/
  (0 <= rfind c s < len s /\ nth_error s (Z.to_nat (rfind c s)) = Some c).
Proof.
  unfold rfind. destruct (rfind_from_spec c s 0 (-1)) as [[H _] | [H Hn]];
    [left; exact H | right].
  rewrite Z.sub_0_r in Hn. split; [lia | exact Hn].
Qed.

(** X14.  A text longer than [max_length >= 0] is cut to a prefix of at
    most [max_length] characters followed by three dots, so to at most
    [max_length + 3] characters; the prefix has [max_length] characters or
    stops just before a space of the text.  Of the comparison with the
    float product only this is used: it holds for no negative offset. *)
Theorem truncate_text_shortens (above : Z -> Z -> bool) (t : text) (max_length : Z) :
  (forall a b, 0 <= b -> above a b = true -> 0 <= a) ->
  0 <= max_length < len t ->
  exists n,
    0 <= n <= max_length /\
    truncate_text above t max_length = slice t 0 n ++ str "..." /\
    len (truncate_text above t max_length) = n + 3 /\
    (n = max_length \/
     (Py.index t n = Some blank /\ above n max_length = true)).
Proof.
  intros Habove Hmax. unfold truncate_text.
  destruct (Z.leb_spec (len t) max_length) as [Hle | _]; [lia |].
  set (truncated := slice t 0 max_length).
  assert (Hlen : len truncated = max_length)
    by (subst truncated; rewrite length_slice_inside; lia).
  assert (Hsize : forall n, 0 <= n <= max_length ->
                    len (slice t 0 n ++ str "...") = n + 3).
  { intros n Hn. unfold len. rewrite length_app.
    pose proof (length_slice_inside t 0 n ltac:(lia) ltac:(lia)) as Hl.
    unfold len in Hl. simpl length. lia. }
  destruct (above (rfind blank truncated) max_length) eqn:Hcut.
  - pose proof (Habove _ _ (proj1 Hmax) Hcut) as Hpos.
    destruct (rfind_spec blank truncated) as [Hnone | [Hr Hnth]]; [lia |].
    set (r := rfind blank truncated) in *.
    exists r.
    assert (Hslice : slice truncated 0 r = slice t 0 r).
    { rewrite (slice_inside truncated 0 r) by lia.
      rewrite Z.sub_0_r. change (Z.to_nat 0) with 0%nat.
      subst truncated.
      rewrite (slice_firstn_skipn t 0 max_length 0 (Z.to_nat r)) by lia.
      f_equal; lia. }
    rewrite Hslice.
    split; [lia |]. split; [reflexivity |]. split; [apply Hsize; lia |].
    right. split; [| exact Hcut].
    apply index_nth_error; [lia |].
    subst truncated. rewrite nth_error_slice in Hnth by lia.
    exact Hnth.
  - exists max_length. split; [lia |]. split; [reflexivity |].
    split; [apply Hsize; lia | left; reflexivity].
Qed.

(** X14 on a text of twenty-two characters and a limit of twelve. *)
Lemma truncate_text_shortens_witness :
  exists n,
    0 <= n <= 12 /\
    truncate_text SampleClients.above_four_fifths (str "hello wond erful world") 12
    = slice (str "hello wond erful world") 0 n ++ str "..." /\
    len (truncate_text SampleClients.above_four_fifths
           (str "hello wond erful world") 12) = n + 3 /\
    (n = 12 \/
     (Py.index (str "hello wond erful world") n = Some blank /\
      SampleClients.above_four_fifths n 12 = true)).
Proof.
  apply (truncate_text_shortens SampleClients.above_four_fifths
           (str "hello wond erful world") 12).
  - intros a b Hb H. unfold SampleClients.above_four_fifths in H.
    apply Z.ltb_lt in H. lia.
  - unfold len. simpl. lia.
Defined.

(** *** [clean_text] *)

Section Clean.

Variable isalnum : char -> bool.

Local Abbreviation allowed := (UtilsRest.allowed isalnum).
Local Abbreviation special := (UtilsRest.special isalnum).
Local Abbreviation clean_text := (UtilsRest.clean_text isalnum).
Local Abbreviation clean_char := (UtilsRest.clean_char isalnum).

Lemma allowed_space c : isspace c = true -> allowed c = true.
Proof.
  intros H. unfold UtilsRest.allowed. rewrite H.
  rewrite orb_true_r. reflexivity.
Qed.

Lemma allowed_punctuation c : kept_punctuation c = true -> allowed c = true.
Proof. intros H. unfold UtilsRest.allowed. rewrite H. apply orb_true_r. Qed.

(** After the replacement of the runs of a class nothing of the class is
    left but what the replacement brings. *)
Lemma sub_removes_class p repl s skip :
  Forall (fun c => p c = false \/ In c repl)
         (sub_from (at_least 1 p) repl s skip).
Proof.
  revert skip. induction s as [| c s IH]; intros skip; simpl; [constructor |].
  destruct skip; [| apply IH].
  unfold at_least at 1. simpl.
  destruct (p c) eqn:Hc; simpl.
  - apply Forall_app. split; [| apply IH].
    apply Forall_forall. auto.
  - constructor; [auto | apply IH].
Qed.

Lemma strip_forall (Q : char -> Prop) s : Forall Q s -> Forall Q (strip s).
Proof.
  intros H. destruct (strip_span s) as (a & b & _ & -> & _).
  apply Forall_forall. intros c Hc. rewrite Forall_forall in H. apply H.
  apply StoreClaims.in_firstn in Hc.
  rewrite <- (firstn_skipn a s). apply in_or_app. right. exact Hc.
Qed.

(** X15.  A cleaned text has no whitespace at either end; each of its
    characters is a word character, a plain space or one of the
    punctuation marks that line 13 keeps, so it holds no newline or tab;
    and no two quotes are neighbours. *)
Theorem clean_text_is_clean (t : text) :
  strip (clean_text t) = clean_text t /\
  Forall clean_char (clean_text t) /\
  no_adjacent is_quote (clean_text t).
Proof.
  unfold UtilsRest.clean_text.
  destruct (truthy t); cbn [negb]; [| repeat split; constructor].
  set (a := sub (at_least 1 isspace) [blank] t).
  set (b := sub (one special) [blank] a).
  set (c := sub (at_least 3 is_dot) [dot; dot; dot] b).
  set (d := sub (at_least 2 is_quote) [dquote] c).
  assert (Ha : Forall (fun x => isspace x = true -> x = blank) a).
  { subst a. unfold sub.
    eapply Forall_impl; [| apply sub_removes_class].
    simpl. intros x [Hx | [<- | []]] Hs; [congruence | reflexivity]. }
  assert (Hb : Forall clean_char b).
  { subst b. rewrite sub_one_map. apply Forall_map.
    eapply Forall_impl; [| exact Ha]. simpl. intros x Hx.
    unfold UtilsRest.special.
    destruct (UtilsRest.allowed isalnum x) eqn:Hal; simpl.
    - split; assumption.
    - split; [apply allowed_space; reflexivity | reflexivity]. }
  assert (Hc : Forall clean_char c).
  { subst c. apply sub_from_forall; [exact Hb |].
    repeat constructor; try (apply allowed_punctuation; reflexivity);
      discriminate. }
  assert (Hd : Forall clean_char d).
  { subst d. apply sub_from_forall; [exact Hc |].
    repeat constructor; try (apply allowed_punctuation; reflexivity);
      discriminate. }
  assert (Hq : no_adjacent is_quote d).
  { subst d. apply (sub_no_adjacent 2 is_quote dquote) with (n := length c);
      [lia | reflexivity | lia]. }
  split; [apply ChunkExtras.strip_idempotent |].
  split; [apply strip_forall; exact Hd |].
  destruct (strip_span d) as (x & y & _ & -> & _).
  apply no_adjacent_firstn, no_adjacent_skipn. exact Hq.
Qed.

End Clean.

(** *** [extract_tables_from_text] *)

Lemma split_lines_cons s : exists l ls, split_lines s = l :: ls.
Proof.
  induction s as [| c s (l & ls & IH)]; simpl; [eauto |].
  destruct (c =? nl)%N; [eauto |]. rewrite IH. eauto.
Qed.

(** No line of a split text holds a newline. *)
Lemma split_lines_no_newline s :
  Forall (Forall (fun c => c <> nl)) (split_lines s).
Proof.
  induction s as [| c s IH]; simpl; [repeat constructor |].
  destruct (N.eqb_spec c nl) as [-> | Hne]; [constructor; [constructor | exact IH] |].
  destruct (split_lines s) as [| l ls]; [repeat constructor; exact Hne |].
  inversion IH; subst. constructor; [constructor; assumption | assumption].
Qed.

Lemma split_lines_app x s :
  Forall (fun c => c <> nl) x ->
  split_lines (x ++ nl :: s) = x :: split_lines s.
Proof.
  induction 1 as [| c x Hc Hx IH]; simpl.
  - reflexivity.
  - destruct (N.eqb_spec c nl); [contradiction |]. rewrite IH. reflexivity.
Qed.

Lemma split_lines_one x :
  Forall (fun c => c <> nl) x -> split_lines x = [x].
Proof.
  induction 1 as [| c x Hc Hx IH]; simpl; [reflexivity |].
  destruct (N.eqb_spec c nl); [contradiction |]. rewrite IH. reflexivity.
Qed.

(** Joining lines with newlines and splitting again gives the lines. *)
Lemma split_lines_join g :
  g <> [] -> Forall (Forall (fun c => c <> nl)) g ->
  split_lines (join [nl] g) = g.
Proof.
  intros Hne Hg. induction Hg as [| x g Hx Hg IH]; [congruence |].
  destruct g as [| y g]; [apply split_lines_one; exact Hx |].
  change (join [nl] (x :: y :: g)) with (x ++ nl :: join [nl] (y :: g)).
  rewrite split_lines_app by exact Hx. rewrite IH by discriminate. reflexivity.
Qed.

Lemma join_nonempty x g : x <> [] -> join [nl] (x :: g) <> [].
Proof.
  intros Hx. destruct x as [| c x]; [congruence |].
  destruct g; simpl; discriminate.
Qed.

Lemma table_row_nonempty l : table_row l = true -> l <> [].
Proof. intros H ->. discriminate H. Qed.

(** What a line must be to sit in a table: without newline, not empty. *)
Lemma scan_lines_spec lines :
  forall tables current in_table,
    (current <> [] -> in_table = true) ->
    Forall (fun l => Forall (fun c => c <> nl) l /\ l <> []) current ->
    Forall (Forall (fun c => c <> nl)) lines ->
    exists new,
      (let (tables', current') := scan_lines lines tables current in_table in
       if truthy current' then tables' ++ [join [nl] current'] else tables')
      = tables ++ new /\
      flat_map split_lines new
      = current ++ filter table_row (map strip lines) /\
      Forall (fun tb => tb <> []) new.
Proof.
  induction lines as [| line lines IH]; intros tables current in_table Hin Hcur Hlines.
  - simpl. destruct current as [| x current]; simpl.
    + exists []. rewrite app_nil_r. repeat split. constructor.
    + exists [join [nl] (x :: current)]. split; [reflexivity |].
      inversion Hcur as [| ? ? [Hx Hxne] Hrest]; subst.
      split.
      * cbn [flat_map]. rewrite !app_nil_r. apply split_lines_join; [discriminate |].
        constructor; [exact Hx |].
        eapply Forall_impl; [| exact Hrest]. simpl. tauto.
      * constructor; [apply join_nonempty; exact Hxne | constructor].
  - inversion Hlines as [| ? ? Hline Hrest]; subst.
    cbn [scan_lines map filter]. cbv zeta.
    destruct (table_row (strip line)) eqn:Hrow.
    + destruct (IH tables (current ++ [strip line]) true) as (new & Hscan & Hrows & Hne).
      * auto.
      * apply Forall_app. split; [exact Hcur |].
        constructor; [| constructor].
        split; [apply strip_forall; exact Hline | apply table_row_nonempty; exact Hrow].
      * exact Hrest.
      * exists new. split; [exact Hscan |]. split; [| exact Hne].
        rewrite Hrows, <- app_assoc. reflexivity.
    + destruct current as [| x current].
      * cbn [truthy]. rewrite andb_false_r.
        destruct (IH tables [] false) as (new & Hscan & Hrows & Hne);
          [congruence | constructor | exact Hrest |].
        exists new. auto.
      * rewrite (Hin ltac:(discriminate)). cbn [truthy andb].
        destruct (IH (tables ++ [join [nl] (x :: current)]) [] false)
          as (new & Hscan & Hrows & Hne); [congruence | constructor | exact Hrest |].
        exists (join [nl] (x :: current) :: new).
        inversion Hcur as [| ? ? [Hx Hxne] Hcur']; subst.
        split; [etransitivity; [exact Hscan | rewrite <- app_assoc; reflexivity] |].
        split.
        -- cbn [flat_map]. rewrite Hrows.
           rewrite split_lines_join; [reflexivity | discriminate |].
           constructor; [exact Hx |].
           eapply Forall_impl; [| exact Hcur']. simpl. tauto.
        -- constructor; [apply join_nonempty; exact Hxne | exact Hne].
Qed.

(** X17.  The lines of the tables that [extract_tables_from_text] returns
    are exactly the stripped lines of the text that hold at least two
    separators, in their order; no table is empty. *)
Theorem tables_hold_the_table_rows (t : text) :
  flat_map split_lines (extract_tables_from_text t)
  = filter table_row (map strip (split_lines t)) /\
  Forall (fun tb => tb <> []) (extract_tables_from_text t).
Proof.
  destruct (scan_lines_spec (split_lines t) [] [] false)
    as (new & Hscan & Hrows & Hne);
    [congruence | constructor | apply split_lines_no_newline |].
  assert (Hnew : extract_tables_from_text t = new) by exact Hscan.
  rewrite Hnew. auto.
Qed.

End UtilsRestFacts.
